(** * alembic.util.langhelpers: [Dispatcher] and [to_tuple]

    A shallow embedding of the type-hierarchy dispatcher and of the
    tuple-coercion helper of [alembic/util/langhelpers.py], together with
    the properties stated for them.

    Python objects that the code mutates in place (the registry dict of a
    dispatcher, the per-slot lists of a [uselist] dispatcher) live in an
    explicit heap and are referred to by location, so that aliasing between
    a dispatcher, its branches and the closures returned by [dispatch] is
    visible.  Every method is a computation in a state-and-exception monad
    over that heap. *)

From stdpp Require Import gmap strings list pretty.

Open Scope string_scope.
Open Scope list_scope.

(** ** Identities *)

(** Class objects, function objects and heap objects are compared by
    identity; an identity is a natural number. *)
Abbreviation classid := nat (only parsing).
Abbreviation fnid := nat (only parsing).
Abbreviation loc := nat (only parsing).

(** ** Exceptions and results *)

Inductive exn :=
| AssertionError
| ValueError (msg : string)
| TypeError (msg : string)
| KeyError
| AttributeError (msg : string)
| SystemError
| UserError (tag : nat).

Inductive res (A : Type) :=
| Ok (a : A)
| Raise (e : exn).
Arguments Ok {A} a.
Arguments Raise {A} e.

(** ** Registry keys and values *)

(** What a registry is keyed on: a string, or a class (by identity). *)
Inductive target :=
| TStr (s : string)
| TCls (c : classid).

#[global] Instance target_eq_dec : EqDecision target.
Proof. solve_decision. Defined.

#[global] Instance target_countable : Countable target.
Proof.
  refine (inj_countable'
            (fun t => match t with TStr s => inl s | TCls c => inr c end)
            (fun x => match x with inl s => TStr s | inr c => TCls c end) _).
  by intros [].
Defined.

Abbreviation key := (target * string)%type (only parsing).

(** Values that sit in a registry or come out of [dispatch]: a function
    object, a reference to a list object, or the closure [go] built by
    [_fn_or_list] (which captures [fn_or_list] by reference). *)
Inductive value :=
| VFn (f : fnid)
| VList (l : loc)
| VGo (captured : value).

#[global] Instance value_eq_dec : EqDecision value.
Proof. solve_decision. Defined.

(** ** The heap *)

Record heap := Heap {
  dicts : list (gmap key value);
  lists : list (list fnid)
}.

Definition empty_heap : heap := Heap [] [].

(** ** The monad *)

Definition M (A : Type) : Type := heap -> heap * res A.

Definition ret {A} (a : A) : M A := fun h => (h, Ok a).

Definition raise {A} (e : exn) : M A := fun h => (h, Raise e).

Definition bind {A B} (c : M A) (k : A -> M B) : M B :=
  fun h => match c h with
           | (h', Ok a) => k a h'
           | (h', Raise e) => (h', Raise e)
           end.

Declare Scope py_scope.
Delimit Scope py_scope with py.
Notation "x <- c ;; k" := (bind c (fun x => k))
  (at level 100, c at next level, right associativity) : py_scope.
Notation "c ;;; k" := (bind c (fun _ => k))
  (at level 100, right associativity) : py_scope.
Open Scope py_scope.

(** ** Heap primitives *)

(** [SystemError] stands for the use of a location that holds no object;
    no heap built by the methods below gets there. *)

(** [{}] *)
Definition new_dict : M loc :=
  fun h => (Heap (dicts h ++ [∅]) (lists h), Ok (length (dicts h))).

(** A list display or list comprehension: a new list object. *)
Definition new_list (xs : list fnid) : M loc :=
  fun h => (Heap (dicts h) (lists h ++ [xs]), Ok (length (lists h))).

(** [k in d] *)
Definition dict_contains (d : loc) (k : key) : M bool :=
  fun h => match dicts h !! d with
           | Some m => (h, Ok (bool_decide (is_Some (m !! k))))
           | None => (h, Raise SystemError)
           end.

(** [d[k]] *)
Definition dict_getitem (d : loc) (k : key) : M value :=
  fun h => match dicts h !! d with
           | Some m => match m !! k with
                       | Some v => (h, Ok v)
                       | None => (h, Raise KeyError)
                       end
           | None => (h, Raise SystemError)
           end.

(** [d[k] = v] *)
Definition dict_setitem (d : loc) (k : key) (v : value) : M unit :=
  fun h => match dicts h !! d with
           | Some m => (Heap (<[d := <[k := v]> m]> (dicts h)) (lists h), Ok tt)
           | None => (h, Raise SystemError)
           end.

(** [d.setdefault(k, v)] *)
Definition dict_setdefault (d : loc) (k : key) (v : value) : M value :=
  fun h => match dicts h !! d with
           | Some m => match m !! k with
                       | Some v0 => (h, Ok v0)
                       | None =>
                           (Heap (<[d := <[k := v]> m]> (dicts h)) (lists h), Ok v)
                       end
           | None => (h, Raise SystemError)
           end.

(** The keys of a dict, as [for k in d] goes through them.  They come in
    the order of the finite map rather than in insertion order; the order
    only decides which new list object goes to which key in [branch]. *)
Definition dict_keys (d : loc) : M (list key) :=
  fun h => match dicts h !! d with
           | Some m => (h, Ok (map_to_list m).*1)
           | None => (h, Raise SystemError)
           end.

(** [d.update(src)] with [src] a dict: every item of [src] is stored in
    [d], replacing what [d] held under the same key. *)
Definition dict_update (d src : loc) : M unit :=
  fun h => match dicts h !! d, dicts h !! src with
           | Some m, Some ms => (Heap (<[d := ms ∪ m]> (dicts h)) (lists h), Ok tt)
           | _, _ => (h, Raise SystemError)
           end.

(** [v.append(fn)] *)
Definition list_append (v : value) (fn : fnid) : M unit :=
  fun h => match v with
           | VList l =>
               match lists h !! l with
               | Some xs => (Heap (dicts h) (<[l := xs ++ [fn]]> (lists h)), Ok tt)
               | None => (h, Raise SystemError)
               end
           | VFn _ | VGo _ =>
               (h, Raise (AttributeError "'function' object has no attribute 'append'"))
           end.

(** [[fn for fn in v]] *)
Definition list_copy (v : value) : M loc :=
  fun h => match v with
           | VList l =>
               match lists h !! l with
               | Some xs => new_list xs h
               | None => (h, Raise SystemError)
               end
           | VFn _ | VGo _ =>
               (h, Raise (TypeError "'function' object is not iterable"))
           end.

(** ** class Dispatcher *)

Record Dispatcher := {
  _registry : loc;
  uselist : bool
}.

Definition default_qualifier : string := "default".

(** [Dispatcher.__init__(self, uselist=False)] *)
Definition Dispatcher_init (uselist : bool) : M Dispatcher :=
  r <- new_dict ;;
  ret {| _registry := r; uselist := uselist |}.

(** [Dispatcher.dispatch_for(target, qualifier)(fn)]: the body of
    [decorate].  The [assert] is the one of a run without [-O]: it raises
    [AssertionError] when its condition is false. *)
Definition dispatch_for (self : Dispatcher) (target : target)
    (qualifier : string) (fn : fnid) : M fnid :=
  if uselist self then
    fresh <- new_list [] ;;
    slot <- dict_setdefault (_registry self) (target, qualifier) (VList fresh) ;;
    list_append slot fn ;;;
    ret fn
  else
    present <- dict_contains (_registry self) (target, qualifier) ;;
    if (present : bool) then raise AssertionError
    else
      dict_setitem (_registry self) (target, qualifier) (VFn fn) ;;;
      ret fn.

(** [Dispatcher._fn_or_list] *)
Definition _fn_or_list (self : Dispatcher) (fn_or_list : value) : value :=
  if uselist self then VGo fn_or_list else fn_or_list.

(** ** Objects handed to [dispatch] *)

(** An object is a string, a class, a tuple (an instance of [tuple] or of
    a subclass of it; the distinction matters to the [%] operator), or any
    other instance.  Instances carry the identity of their class. *)
#[local] Unset Elimination Schemes.
Inductive pyobj :=
| OStr (s : string)
| OType (c : classid)
| OTuple (c : classid) (items : list pyobj)
| OInst (c : classid) (oid : nat).
#[local] Set Elimination Schemes.

(** [isinstance(obj, tuple)] *)
Definition is_tuple (obj : pyobj) : bool :=
  match obj with OTuple _ _ => true | _ => false end.

Section Dispatch.

(** [cls.__mro__], the linearization the interpreter computed when the
    class was created. *)
Variable mro : classid -> list classid.

(** [str(obj)] *)
Variable py_str : pyobj -> string.

(** The probe sequence built at the top of [dispatch]:
    [[obj]] if [isinstance(obj, string_types)] ([string_types] is
    [(str,)]), [obj.__mro__] if [isinstance(obj, type)], and
    [type(obj).__mro__] otherwise. *)
Definition targets_of (obj : pyobj) : list target :=
  match obj with
  | OStr s => [TStr s]
  | OType c => TCls <$> mro c
  | OTuple c _ | OInst c _ => TCls <$> mro c
  end.

(** [fmt % obj] for a format string [fmt] that is [prefix] followed by
    one [%s]: a tuple on the right is taken as the argument list. *)
Definition percent_s (prefix : string) (obj : pyobj) : res string :=
  match obj with
  | OTuple _ [] => Raise (TypeError "not enough arguments for format string")
  | OTuple _ [x] => Ok (prefix ++ py_str x)%string
  | OTuple _ (_ :: _ :: _) =>
      Raise (TypeError "not all arguments converted during string formatting")
  | _ => Ok (prefix ++ py_str obj)%string
  end.

Definition no_dispatch_prefix : string := "no dispatch function for object: ".

(** The [for spcls in targets: ... else: raise ValueError(...)] loop. *)
Fixpoint dispatch_loop (self : Dispatcher) (obj : pyobj) (qualifier : string)
    (targets : list target) : M value :=
  match targets with
  | [] =>
      match percent_s no_dispatch_prefix obj with
      | Ok msg => raise (ValueError msg)
      | Raise e => raise e
      end
  | spcls :: rest =>
      exact <- (if bool_decide (qualifier ≠ default_qualifier)
                then dict_contains (_registry self) (spcls, qualifier)
                else ret false) ;;
      if (exact : bool) then
        v <- dict_getitem (_registry self) (spcls, qualifier) ;;
        ret (_fn_or_list self v)
      else
        dflt <- dict_contains (_registry self) (spcls, default_qualifier) ;;
        if (dflt : bool) then
          v <- dict_getitem (_registry self) (spcls, default_qualifier) ;;
          ret (_fn_or_list self v)
        else dispatch_loop self obj qualifier rest
  end.

(** [Dispatcher.dispatch(obj, qualifier)] *)
Definition dispatch (self : Dispatcher) (obj : pyobj) (qualifier : string)
    : M value :=
  dispatch_loop self obj qualifier (targets_of obj).

End Dispatch.

(** The generator fed to [update] in the [uselist] arm of [branch]: for
    each key of the source registry, a fresh copy of its list is stored in
    the new registry. *)
Fixpoint copy_slots (src dst : loc) (ks : list key) : M unit :=
  match ks with
  | [] => ret tt
  | k :: rest =>
      v <- dict_getitem src k ;;
      fresh <- list_copy v ;;
      dict_setitem dst k (VList fresh) ;;;
      copy_slots src dst rest
  end.

(** [Dispatcher.branch] *)
Definition branch (self : Dispatcher) : M Dispatcher :=
  d <- Dispatcher_init false ;;
  if uselist self then
    ks <- dict_keys (_registry self) ;;
    copy_slots (_registry self) (_registry d) ks ;;;
    ret d
  else
    dict_update (_registry d) (_registry self) ;;;
    ret d.

(** ** Calling what [dispatch] returned *)

Section Calls.

(** The arguments [*arg, **kw] and the state of the world handlers act
    on.  Handlers are taken not to touch the dispatcher's own heap. *)
Variables (args W : Type).

(** The body of each function object: the world it leaves, and the
    exception it raised if any. *)
Variable fn_body : fnid -> args -> W -> W * option exn.

(** One event per handler invocation. *)
Inductive event := Call (fn : fnid) (a : args).

Definition call_result : Type := list event * W * option exn.

(** [for fn in fn_or_list: fn( *arg, **kw)] *)
Fixpoint go_loop (fns : list fnid) (a : args) (w : W) : call_result :=
  match fns with
  | [] => ([], w, None)
  | fn :: rest =>
      match fn_body fn a w with
      | (w', Some e) => ([Call fn a], w', Some e)
      | (w', None) =>
          let '(tr, w'', r) := go_loop rest a w' in (Call fn a :: tr, w'', r)
      end
  end.

(** [v( *arg, **kw)] for a value [v] returned by [dispatch]. *)
Definition call (h : heap) (v : value) (a : args) (w : W) : call_result :=
  match v with
  | VFn fn => let '(w', r) := fn_body fn a w in ([Call fn a], w', r)
  | VGo (VList l) =>
      match lists h !! l with
      | Some fns => go_loop fns a w
      | None => ([], w, Some SystemError)
      end
  | VGo _ => ([], w, Some (TypeError "'function' object is not iterable"))
  | VList _ => ([], w, Some (TypeError "'list' object is not callable"))
  end.

(** Starting in world [w], the handlers [fns] all return normally, one
    after the other, and leave the world [w']. *)
Inductive all_return (a : args) : list fnid -> W -> W -> Prop :=
| all_return_nil w : all_return a [] w w
| all_return_cons fn rest w w' w'' :
    fn_body fn a w = (w', None) ->
    all_return a rest w' w'' ->
    all_return a (fn :: rest) w w''.

End Calls.

Arguments Call {args} fn a.
Arguments all_return {args W} fn_body a _ _ _.

(** The registry of a [uselist] dispatcher as [dispatch_for] builds it:
    every slot is a reference to a list object of the heap. *)
Definition multi_registry (h : heap) (self : Dispatcher) : Prop :=
  exists m, dicts h !! _registry self = Some m
            /\ forall k v, m !! k = Some v ->
                 exists l fns, v = VList l /\ lists h !! l = Some fns.

(** What [register] may do to the heap when it fails: nothing at all on
    the duplicate-registration error, and nothing to any dict otherwise. *)
Definition left_unchanged {A} (h : heap) (out : heap * res A) : Prop :=
  match out with
  | (h', Raise AssertionError) => h' = h
  | (h', Raise _) => dicts h' = dicts h
  | (_, Ok _) => True
  end.

(** [dispatch_for] applied to each handler of a list in turn, under one
    key: the decorator used repeatedly. *)
Fixpoint register_all (self : Dispatcher) (t : target) (q : string)
    (fns : list fnid) : M unit :=
  match fns with
  | [] => ret tt
  | fn :: rest => dispatch_for self t q fn ;;; register_all self t q rest
  end.

(** ** to_tuple *)

Module ToTuple.

(** The values [to_tuple] is applied to.  An iterator is described by
    what iterating it does: the items it yields, and the exception that
    ends the iteration if it is not [StopIteration]. *)
#[local] Unset Elimination Schemes.
Inductive pyval :=
| PNone
| PStr (s : string)
| PInt (n : Z)
| PTuple (items : list pyval)
| PList (items : list pyval)
| PIter (items : list pyval) (failure : option exn)
| PObj (oid : nat).
#[local] Set Elimination Schemes.

(** [isinstance(x, string_types)] *)
Definition is_string (x : pyval) : bool :=
  match x with PStr _ => true | _ => false end.

(** [isinstance(x, Iterable)] *)
Definition is_iterable (x : pyval) : bool :=
  match x with
  | PStr _ | PTuple _ | PList _ | PIter _ _ => true
  | PNone | PInt _ | PObj _ => false
  end.

Fixpoint chars (s : string) : list pyval :=
  match s with
  | EmptyString => []
  | String c s' => PStr (String c EmptyString) :: chars s'
  end.

(** What [for item in x] goes through. *)
Definition iterate (x : pyval) : res (list pyval * option exn) :=
  match x with
  | PStr s => Ok (chars s, None)
  | PTuple items | PList items => Ok (items, None)
  | PIter items failure => Ok (items, failure)
  | PNone | PInt _ | PObj _ => Raise (TypeError "object is not iterable")
  end.

(** [tuple(x)] *)
Definition py_tuple (x : pyval) : res pyval :=
  match iterate x with
  | Ok (items, None) => Ok (PTuple items)
  | Ok (_, Some e) => Raise e
  | Raise e => Raise e
  end.

(** [to_tuple(x, default=None)] *)
Definition to_tuple (x default : pyval) : res pyval :=
  match x with
  | PNone => Ok default
  | _ =>
      if is_string x then Ok (PTuple [x])
      else if is_iterable x then py_tuple x
      else Ok (PTuple [x])
  end.

End ToTuple.

(** ** A small class hierarchy, used in the examples *)

Module Example.

Definition object : classid := 0.
Definition Grandparent : classid := 1.
Definition Parent : classid := 2.
Definition Child : classid := 3.
Definition tuple : classid := 4.

(** [object <- Grandparent <- Parent <- Child]; every other class
    derives from [object] directly. *)
Definition mro (c : classid) : list classid :=
  match c with
  | 0 => [object]
  | 1 => [Grandparent; object]
  | 2 => [Parent; Grandparent; object]
  | 3 => [Child; Parent; Grandparent; object]
  | _ => [c; object]
  end.

Definition py_str (obj : pyobj) : string :=
  match obj with
  | OStr s => s
  | OType _ => "<class>"
  | OTuple _ _ => "(...)"
  | OInst _ _ => "<object>"
  end.

(** Handlers that count their calls; handler [0] raises. *)
Definition fn_body (fn : fnid) (a : unit) (w : nat) : nat * option exn :=
  match fn with
  | 0 => (S w, Some (UserError w))
  | _ => (S w, None)
  end.

(** The dispatcher made by [Dispatcher(uselist)] on the empty heap. *)
Definition d0 (uselist : bool) : Dispatcher :=
  {| _registry := 0; uselist := uselist |}.

(** A "special" handler on [Grandparent] and a default handler on
    [Parent], in the dispatcher [d0 false]. *)
Definition registry_special : gmap key value :=
  <[(TCls Parent, "default") := VFn 2]>
    (<[(TCls Grandparent, "special") := VFn 1]> ∅).

Definition heap_special : heap := Heap [registry_special] [].

(** One handler under [("foo", "default")], in [d0 false]. *)
Definition registry_foo : gmap key value :=
  <[(TStr "foo", "default") := VFn 1]> ∅.

Definition heap_foo : heap := Heap [registry_foo] [].

(** [d0 true] with the slot [("foo", "default")] holding the given
    handlers. *)
Definition registry_multi : gmap key value :=
  {[ (TStr "foo", "default") := VList 0 ]}.

Definition heap_multi (fns : list fnid) : heap := Heap [registry_multi] [fns].

(** The heap after [Dispatcher()], and after a registration of handler
    [5] under [("foo", "default")]. *)
Definition heap_empty : heap := Heap [∅] [].

Definition heap_five : heap :=
  Heap [ <[(TStr "foo", "default") := VFn 5]> ∅ ] [].

(** A two-element tuple. *)
Definition pair_ab : pyobj := OTuple tuple [OStr "a"; OStr "b"].

End Example.

(** ** Legacy argument names: [translate] *)

Module Translate.

(** The [TypeError] raised for a positional argument that was not given. *)
Definition missing_prefix : string := "missing required positional argument: ".

(** A call of [warnings.warn] with the message "Argument %r is now named
    %r for method %s()." formatted with these three values. *)
Inductive warning := Renamed (oldname newname fn_name : string).

Section Translate.

(** The values passed as arguments. *)
Variable V : Type.

(** The two entries of the argument specification that are read:
    [spec[0]], the names of the arguments, and [spec[3]], the defaults
    ([None] or a tuple). *)
Record argspec := {
  spec_args : list string;
  spec_defaults : option (list V)
}.

(** [for oldname, newname in translations: ...]: a keyword given under
    an old name is popped from [kw], a warning is issued, and the value is
    stored in [return_kw] under the new name. *)
Fixpoint rename_loop (fn_name : string) (translations : list (string * string))
    (kw return_kw : gmap string V) (warned : list warning)
    : gmap string V * gmap string V * list warning :=
  match translations with
  | [] => (kw, return_kw, warned)
  | (oldname, newname) :: rest =>
      match kw !! oldname with
      | Some v =>
          rename_loop fn_name rest (delete oldname kw)
            (<[newname := v]> return_kw)
            (warned ++ [Renamed oldname newname fn_name])
      | None => rename_loop fn_name rest kw return_kw warned
      end
  end.

(** [return_kw] after [return_kw.update(kw)]. *)
Definition translate_kw (fn_name : string) (translations : list (string * string))
    (kw : gmap string V) : gmap string V :=
  let '(kw', return_kw, _) := rename_loop fn_name translations kw ∅ [] in
  kw' ∪ return_kw.

(** The warnings issued on the way. *)
Definition translate_warnings (fn_name : string)
    (translations : list (string * string)) (kw : gmap string V) : list warning :=
  (rename_loop fn_name translations kw ∅ []).2.

(** [spec[0][: -len(spec[3])]] if [spec[3]] is true, [spec[0]] if not. *)
Definition pos_only (spec : argspec) : list string :=
  match spec_defaults spec with
  | Some (d :: ds) =>
      take (length (spec_args spec) - length (d :: ds)) (spec_args spec)
  | Some [] | None => spec_args spec
  end.

(** [for arg in pos_only: ...]: every name not given by keyword takes the
    next positional argument, [args.pop(0)]; the result is what is left of
    [args] and [return_args]. *)
Fixpoint fill_positional (pos : list string) (return_kw : gmap string V)
    (args return_args : list V) : res (list V * list V) :=
  match pos with
  | [] => Ok (args, return_args)
  | arg :: rest =>
      match return_kw !! arg with
      | Some _ => fill_positional rest return_kw args return_args
      | None =>
          match args with
          | a :: args' =>
              fill_positional rest return_kw args' (return_args ++ [a])
          | [] => Raise (TypeError (missing_prefix ++ arg)%string)
          end
      end
  end.

(** [translate(fn_name, spec, translations, args, kw)]: the warnings
    issued, and the pair [(return_args, return_kw)] or the exception. *)
Definition translate (fn_name : string) (spec : argspec)
    (translations : list (string * string)) (args : list V)
    (kw : gmap string V) : list warning * res (list V * gmap string V) :=
  let '(kw', return_kw, warned) := rename_loop fn_name translations kw ∅ [] in
  let return_kw := kw' ∪ return_kw in
  (warned,
   match fill_positional (pos_only spec) return_kw args [] with
   | Ok (args', return_args) => Ok (return_args ++ args', return_kw)
   | Raise e => Raise e
   end).

(** The names of [pos_only] that no keyword supplies. *)
Definition uncovered (spec : argspec) (return_kw : gmap string V) : list string :=
  filter (fun arg => return_kw !! arg = None) (pos_only spec).

End Translate.

Arguments spec_args {V} _.
Arguments spec_defaults {V} _.
Arguments rename_loop {V} _ _ _ _ _.
Arguments translate_kw {V} _ _ _.
Arguments translate_warnings {V} _ _ _.
Arguments pos_only {V} _.
Arguments fill_positional {V} _ _ _ _.
Arguments translate {V} _ _ _ _ _.
Arguments uncovered {V} _ _.

End Translate.

(** A method [m(constraint_name, table_name, columns, schema=None)] whose
    first two arguments were once called [name] and [source]. *)
Module TranslateExample.

Definition translations : list (string * string) :=
  [("name", "constraint_name"); ("source", "table_name")].

Definition spec : Translate.argspec nat :=
  {| Translate.spec_args := ["constraint_name"; "table_name"; "columns"; "schema"];
     Translate.spec_defaults := Some [0] |}.

(** [m(20, name=10, columns=30)] *)
Definition kw_legacy : gmap string nat := <["name" := 10]> {[ "columns" := 30 ]}.

(** [m(10, 20, columns=30)] *)
Definition kw_plain : gmap string nat := {[ "columns" := 30 ]}.

End TranslateExample.

(** ** alembic.util.messaging *)

Module Messaging.

(** *** format_as_comma *)

Section FormatAsComma.

(** [repr(value)] and [type(value).__name__]. *)
Variable py_repr : ToTuple.pyval -> string.
Variable type_name : ToTuple.pyval -> string.

(** [sep.join] of strings. *)
Fixpoint join_strs (sep : string) (ss : list string) : string :=
  match ss with
  | [] => ""
  | [s] => s
  | s :: rest => (s ++ sep ++ join_strs sep rest)%string
  end.

(** The items of the sequence handed to [join] must all be strings; the
    first that is not makes [join] raise. *)
Fixpoint as_strs (i : nat) (items : list ToTuple.pyval) : res (list string) :=
  match items with
  | [] => Ok []
  | ToTuple.PStr s :: rest =>
      match as_strs (S i) rest with
      | Ok ss => Ok (s :: ss)
      | Raise e => Raise e
      end
  | item :: _ =>
      Raise (TypeError ("sequence item " ++ pretty i
                        ++ ": expected str instance, "
                        ++ type_name item ++ " found")%string)
  end.

(** [sep.join(x)]: [x] is iterated to its end first. *)
Definition str_join (sep : string) (x : ToTuple.pyval) : res string :=
  match ToTuple.iterate x with
  | Raise e => Raise e
  | Ok (_, Some e) => Raise e
  | Ok (items, None) =>
      match as_strs 0 items with
      | Ok ss => Ok (join_strs sep ss)
      | Raise e => Raise e
      end
  end.

Definition comma_format_prefix : string := "Don't know how to comma-format ".

(** [format_as_comma(value)] *)
Definition format_as_comma (value : ToTuple.pyval) : res ToTuple.pyval :=
  match value with
  | ToTuple.PNone => Ok (ToTuple.PStr "")
  | _ =>
      if ToTuple.is_string value then Ok value
      else if ToTuple.is_iterable value then
        match str_join ", " value with
        | Ok s => Ok (ToTuple.PStr s)
        | Raise e => Raise e
        end
      else Raise (ValueError (comma_format_prefix ++ py_repr value)%string)
  end.

End FormatAsComma.

(** *** Console output *)

(** The exceptions told apart here; [OtherError] is any other one. *)
Inductive exc :=
| IOError
| IndexError
| SystemExit (code : Z)
| OtherError (tag : nat).

Inductive outcome (A : Type) :=
| Done (a : A)
| Failed (e : exc).
Arguments Done {A} a.
Arguments Failed {A} e.

(** A piece of text handed to [write_outstream]: a [str], or bytes
    ([binary_type]). *)
Inductive text :=
| Str (s : string)
| Bytes (b : string).

(** The attribute [encoding] of a stream: not there, [None], or a
    string. *)
Inductive encoding_attr :=
| NoAttr
| AttrNone
| Attr (name : string).

(** What the functions do to the outside, in order. *)
Inductive event :=
| Wrote (s : string)
| Flushed
| Logged (message : string).

Definition newline_str : string := String (Ascii.ascii_of_nat 10) EmptyString.

Section Console.

(** The state of the world, which holds the stream [sys.stdout]; what
    the stream, the codecs, the logger and [textwrap.wrap] do; the
    terminal width found at import time, [None] or positive. *)
Variable S : Type.
Variable stream_encoding : S -> encoding_attr.
Variable stream_write : string -> S -> S * option exc.
Variable stream_flush : S -> S * option exc.
Variable encode : string -> string -> outcome string.
Variable decode : string -> string -> outcome string.
Variable log_error : string -> S -> S * option exc.
Variable TERMWIDTH : option nat.
Variable wrap : string -> nat -> list string.

(** Computations that act on the world, leave a trace of events, and
    return or raise. *)
Definition Out (A : Type) : Type := S -> list event * S * outcome A.

Definition oret {A} (a : A) : Out A := fun st => ([], st, Done a).

Definition oraise {A} (e : exc) : Out A := fun st => ([], st, Failed e).

Definition obind {A B} (c : Out A) (k : A -> Out B) : Out B :=
  fun st => match c st with
            | (tr, st', Done a) =>
                let '(tr', st'', r) := k a st' in (tr ++ tr', st'', r)
            | (tr, st', Failed e) => (tr, st', Failed e)
            end.

(** [try: body / except: handler; raise] *)
Definition on_exception {A} (body : Out A) (handler : Out unit) : Out A :=
  fun st => match body st with
            | (tr, st', Done a) => (tr, st', Done a)
            | (tr, st', Failed e) =>
                let '(tr', st'', r) := handler st' in
                (tr ++ tr', st'',
                 match r with Done _ => Failed e | Failed e' => Failed e' end)
            end.

(** [getattr(stream, "encoding", "ascii") or "ascii"] *)
Definition encoding_or_ascii (st : S) : string :=
  match stream_encoding st with
  | NoAttr | AttrNone | Attr "" => "ascii"
  | Attr name => name
  end.

(** [t.encode(encoding, "replace")] unless [t] is bytes already, then
    [t.decode(encoding)]. *)
Definition recode (encoding : string) (t : text) : outcome string :=
  match t with
  | Str s =>
      match encode encoding s with
      | Done b => decode encoding b
      | Failed e => Failed e
      end
  | Bytes b => decode encoding b
  end.

(** The loop of [write_outstream]; an [IOError] of [stream.write] ends
    it. *)
Fixpoint write_loop (encoding : string) (texts : list text) : Out unit :=
  match texts with
  | [] => oret tt
  | t :: rest =>
      fun st =>
        match recode encoding t with
        | Failed e => ([], st, Failed e)
        | Done s =>
            match stream_write s st with
            | (st', None) =>
                let '(tr, st'', r) := write_loop encoding rest st' in
                (Wrote s :: tr, st'', r)
            | (st', Some IOError) => ([Wrote s], st', Done tt)
            | (st', Some e) => ([Wrote s], st', Failed e)
            end
        end
  end.

(** [write_outstream(sys.stdout, *text)] *)
Definition write_outstream (texts : list text) : Out unit :=
  fun st => write_loop (encoding_or_ascii st) texts st.

(** [sys.stdout.flush()] *)
Definition flush_stdout : Out unit :=
  fun st => match stream_flush st with
            | (st', None) => ([Flushed], st', Done tt)
            | (st', Some e) => ([Flushed], st', Failed e)
            end.

(** [for line in lines[0:-1]: write_outstream(sys.stdout, "  ", line, "\n")] *)
Fixpoint write_lines (lines : list string) : Out unit :=
  match lines with
  | [] => oret tt
  | line :: rest =>
      obind (write_outstream [Str "  "; Str line; Str newline_str])
        (fun _ => write_lines rest)
  end.

(** [msg(msg, newline=True, flush=False)] *)
Definition msg (m : string) (newline flush : bool) : Out unit :=
  obind
    (match TERMWIDTH with
     | None =>
         obind (write_outstream [Str m])
           (fun _ => if newline then write_outstream [Str newline_str]
                     else oret tt)
     | Some width =>
         let lines := wrap m width in
         obind (if bool_decide (1 < length lines)
                then write_lines (take (length lines - 1) lines)
                else oret tt)
           (fun _ =>
              match last lines with
              | Some l =>
                  write_outstream
                    [Str "  "; Str l; Str (if newline then newline_str else "")]
              | None => oraise IndexError
              end)
     end)
    (fun _ => if flush then flush_stdout else oret tt).

Section Status.

(** The values passed around, and which of them are true. *)
Variable V : Type.
Variable truthy : V -> bool.

(** [status(_statmsg, fn, *arg, **kw)] *)
Definition status (statmsg : string) (fn : list V -> gmap string V -> Out V)
    (arg : list V) (kw : gmap string V) : Out V :=
  let newline := match kw !! "newline" with
                 | Some v => truthy v
                 | None => false
                 end in
  let kw := delete "newline" kw in
  obind (msg (statmsg ++ " ...") newline true)
    (fun _ =>
       on_exception
         (obind (fn arg kw)
            (fun ret =>
               obind (write_outstream [Str ("  done" ++ newline_str)])
                 (fun _ => oret ret)))
         (write_outstream [Str ("  FAILED" ++ newline_str)])).

End Status.

(** [err(message)]; it returns nothing, whence the empty result type. *)
Definition err (message : string) : Out Empty_set :=
  obind (fun st => match log_error message st with
                   | (st', None) => ([Logged message], st', Done tt)
                   | (st', Some e) => ([Logged message], st', Failed e)
                   end)
    (fun _ =>
       obind (msg ("FAILED: " ++ message) true false)
         (fun _ => oraise (SystemExit (-1)))).

(** The texts [ts] are recoded and written one after the other without
    an exception, as the strings [ss], and take the stream from [st] to
    [st']. *)
Inductive written (encoding : string) : list text -> S -> list string -> S -> Prop :=
| written_nil st : written encoding [] st [] st
| written_cons t ts s ss st st' st'' :
    recode encoding t = Done s ->
    stream_write s st = (st', None) ->
    written encoding ts st' ss st'' ->
    written encoding (t :: ts) st (s :: ss) st''.

(** The stream after the strings [ss] were written to it without an
    exception. *)
Definition after_writes (ss : list string) (st : S) : S :=
  foldl (fun st s => (stream_write s st).1) st ss.

End Console.

(** The writes of [write_lines] when none fails: every line between two
    spaces and a newline, each text as the codecs make it ([r]). *)
Definition line_events (r : string -> string) (lines : list string) : list event :=
  lines ≫= (fun line => [Wrote (r "  "); Wrote (r line); Wrote (r newline_str)]).

End Messaging.

(** Streams and codecs for the examples. *)
Module ConsoleExample.

(** A stream that keeps what is written to it, with no attribute
    [encoding]. *)
Definition buffer_write (s : string) (st : list string)
    : list string * option Messaging.exc :=
  (st ++ [s], None).

Definition buffer_flush (st : list string) : list string * option Messaging.exc :=
  (st, None).

Definition buffer_encoding (st : list string) : Messaging.encoding_attr :=
  Messaging.NoAttr.

(** A pipe that takes a number of writes and is then closed by its
    reader: the state is the number of writes left and what was
    written. *)
Definition pipe_write (s : string) (st : nat * list string)
    : (nat * list string) * option Messaging.exc :=
  match st with
  | (0, w) => ((0, w), Some Messaging.IOError)
  | (S n, w) => ((n, w ++ [s]), None)
  end.

Definition pipe_flush (st : nat * list string)
    : (nat * list string) * option Messaging.exc :=
  (st, None).

Definition pipe_encoding (st : nat * list string) : Messaging.encoding_attr :=
  Messaging.Attr "utf-8".

(** A stream whose [write] raises an exception that is not an
    [IOError]. *)
Definition faulty_write (s : string) (st : list string)
    : list string * option Messaging.exc :=
  (st, Some (Messaging.OtherError 1)).

(** Codecs under which the texts of the examples are unchanged. *)
Definition encode (encoding s : string) : Messaging.outcome string :=
  Messaging.Done s.

Definition decode (encoding b : string) : Messaging.outcome string :=
  Messaging.Done b.

Definition log_error {S : Type} (message : string) (st : S)
    : S * option Messaging.exc :=
  (st, None).

(** A [wrap] that breaks at every space, and one for an empty message. *)
Fixpoint words (acc s : string) : list string :=
  match s with
  | EmptyString => if decide (acc = "") then [] else [acc]
  | String c s' =>
      if decide (c = Ascii.Space) then
        if decide (acc = "") then words "" s' else acc :: words "" s'
      else words (acc ++ String c "")%string s'
  end.

Definition wrap (m : string) (width : nat) : list string := words "" m.

(** A handler that returns its first argument, and one that raises. *)
Definition fn_first (arg : list nat) (kw : gmap string nat)
    : Messaging.Out (list string) nat :=
  fun st => ([], st, Messaging.Done (default 0 (head arg))).

Definition fn_raises (arg : list nat) (kw : gmap string nat)
    : Messaging.Out (list string) nat :=
  fun st => ([], st, Messaging.Failed (Messaging.OtherError 7)).

Definition truthy (v : nat) : bool := negb (Nat.eqb v 0).

Definition type_name (v : ToTuple.pyval) : string :=
  match v with
  | ToTuple.PNone => "NoneType"
  | ToTuple.PStr _ => "str"
  | ToTuple.PInt _ => "int"
  | ToTuple.PTuple _ => "tuple"
  | ToTuple.PList _ => "list"
  | ToTuple.PIter _ _ => "generator"
  | ToTuple.PObj _ => "object"
  end.

Definition py_repr (v : ToTuple.pyval) : string :=
  match v with
  | ToTuple.PInt _ => "<int>"
  | _ => "<object>"
  end.

End ConsoleExample.

(** ** ModuleClsProxy *)

Module Proxy.

(** What a module namespace may hold under a name: [None], the proxy
    object, the value of an attribute of the proxy object, the function
    that [_create_method_proxy] makes for a method, the helpers
    [_name_error] and [translate] it stores, or anything else. *)
Inductive nsval :=
| NNone
| NProxy (inst : nat)
| NAttr (v : nat)
| NFunction (name : string)
| NNameError
| NTranslate
| NOther (v : nat).

(** An attribute of the class: whether it is callable, its
    [_legacy_translations] (empty if it has none), and its value. *)
Record cattr := {
  ca_callable : bool;
  ca_translations : list (string * string);
  ca_value : nat
}.

(** The namespaces (the dicts [globals_] and [locals_] of the modules,
    by location), the entry [_setups[cls]] of the class, which is the set
    [attr_names] and the list [modules], and the attributes of the
    class. *)
Record pstate := PState {
  ns : list (gmap string nsval);
  attr_names : gset string;
  modules : list (loc * loc);
  cls_attrs : gmap string cattr
}.

Definition PM (A : Type) : Type := pstate -> pstate * res A.

Definition pret {A} (a : A) : PM A := fun st => (st, Ok a).

Definition praise {A} (e : exn) : PM A := fun st => (st, Raise e).

Definition pbind {A B} (c : PM A) (k : A -> PM B) : PM B :=
  fun st => match c st with
            | (st', Ok a) => k a st'
            | (st', Raise e) => (st', Raise e)
            end.

(** [methname.startswith("_")] *)
Definition starts_with_underscore (name : string) : bool :=
  match name with
  | String c _ => bool_decide (c = Ascii.ascii_of_nat 95)
  | EmptyString => false
  end.

(** [d[k] = v] *)
Definition ns_set (d : loc) (k : string) (v : nsval) : PM unit :=
  fun st => match ns st !! d with
            | Some m =>
                (PState (<[d := <[k := v]> m]> (ns st)) (attr_names st)
                   (modules st) (cls_attrs st), Ok tt)
            | None => (st, Raise SystemError)
            end.

(** [del d[k]] *)
Definition ns_del (d : loc) (k : string) : PM unit :=
  fun st => match ns st !! d with
            | Some m =>
                match m !! k with
                | Some _ =>
                    (PState (<[d := delete k m]> (ns st)) (attr_names st)
                       (modules st) (cls_attrs st), Ok tt)
                | None => (st, Raise KeyError)
                end
            | None => (st, Raise SystemError)
            end.

(** [attr_names.add(name)] *)
Definition attr_add (name : string) : PM unit :=
  fun st => (PState (ns st) ({[name]} ∪ attr_names st) (modules st)
               (cls_attrs st), Ok tt).

Section Proxy.

(** The name of the class, and [getattr(self, name)] for the proxy
    object [self]. *)
Variable cls_name : string.
Variable inst_getattr : nat -> string -> option nat.

(** [getattr(cls, name)] *)
Definition cls_getattr (name : string) : PM cattr :=
  fun st => match cls_attrs st !! name with
            | Some ca => (st, Ok ca)
            | None =>
                (st, Raise (AttributeError
                              ("type object '" ++ cls_name
                               ++ "' has no attribute '" ++ name ++ "'")%string))
            end.

(** [getattr(self, name)] *)
Definition self_getattr (self : nat) (name : string) : PM nat :=
  fun st => match inst_getattr self name with
            | Some v => (st, Ok v)
            | None =>
                (st, Raise (AttributeError
                              ("'" ++ cls_name ++ "' object has no attribute '"
                               ++ name ++ "'")%string))
            end.

(** [for attr_name in attr_names: globals_[attr_name] = getattr(self, attr_name)] *)
Fixpoint install_attrs (self : nat) (globals_ : loc) (names : list string)
    : PM unit :=
  match names with
  | [] => pret tt
  | attr_name :: rest =>
      pbind (self_getattr self attr_name) (fun v =>
      pbind (ns_set globals_ attr_name (NAttr v)) (fun _ =>
      install_attrs self globals_ rest))
  end.

Fixpoint install_modules (self : nat) (names : list string)
    (mods : list (loc * loc)) : PM unit :=
  match mods with
  | [] => pret tt
  | (globals_, locals_) :: rest =>
      pbind (ns_set globals_ "_proxy" (NProxy self)) (fun _ =>
      pbind (install_attrs self globals_ names) (fun _ =>
      install_modules self names rest))
  end.

(** [ModuleClsProxy._install_proxy]; the names of the set are gone
    through in the order of [elements]. *)
Definition _install_proxy (self : nat) : PM unit :=
  fun st => install_modules self (elements (attr_names st)) (modules st) st.

(** [for attr_name in attr_names: del globals_[attr_name]] *)
Fixpoint remove_attrs (globals_ : loc) (names : list string) : PM unit :=
  match names with
  | [] => pret tt
  | attr_name :: rest =>
      pbind (ns_del globals_ attr_name) (fun _ => remove_attrs globals_ rest)
  end.

Fixpoint remove_modules (names : list string) (mods : list (loc * loc))
    : PM unit :=
  match mods with
  | [] => pret tt
  | (globals_, locals_) :: rest =>
      pbind (ns_set globals_ "_proxy" NNone) (fun _ =>
      pbind (remove_attrs globals_ names) (fun _ =>
      remove_modules names rest))
  end.

(** [ModuleClsProxy._remove_proxy] *)
Definition _remove_proxy : PM unit :=
  fun st => remove_modules (elements (attr_names st)) (modules st) st.

(** [ModuleClsProxy._create_method_proxy]: what it does to [globals_],
    and the function it returns.  The source text it builds is taken to
    compile, which it does when [name] is an identifier. *)
Definition _create_method_proxy (name : string) (globals_ locals_ : loc)
    : PM nsval :=
  pbind (cls_getattr name) (fun fn =>
  pbind (ns_set globals_ "_name_error" NNameError) (fun _ =>
  pbind (match ca_translations fn with
         | [] => pret tt
         | _ :: _ => ns_set globals_ "_translate" NTranslate
         end) (fun _ =>
  pret (NFunction name)))).

(** [ModuleClsProxy._add_proxied_attribute] *)
Definition _add_proxied_attribute (methname : string) (globals_ locals_ : loc)
    : PM unit :=
  if negb (starts_with_underscore methname) then
    pbind (cls_getattr methname) (fun meth =>
    if ca_callable meth then
      pbind (_create_method_proxy methname globals_ locals_) (fun f =>
      ns_set locals_ methname f)
    else attr_add methname)
  else pret tt.

(** [ModuleClsProxy._setup_proxy], over the names of [dir(cls)]. *)
Fixpoint setup_names (names : list string) (globals_ locals_ : loc) : PM unit :=
  match names with
  | [] => pret tt
  | methname :: rest =>
      pbind (_add_proxied_attribute methname globals_ locals_) (fun _ =>
      setup_names rest globals_ locals_)
  end.

(** [dir(cls)]: the names of the attributes of the class.  The names
    that [dir] adds from [object] all start with an underscore and are
    passed over by [_add_proxied_attribute]; the order is that of the
    finite map. *)
Definition dir_cls (st : pstate) : list string :=
  (map_to_list (cls_attrs st)).*1.

Definition _setup_proxy (globals_ locals_ : loc) : PM unit :=
  fun st => setup_names (dir_cls st) globals_ locals_ st.

(** [ModuleClsProxy.create_module_class_proxy] *)
Definition create_module_class_proxy (globals_ locals_ : loc) : PM unit :=
  pbind (fun st => (PState (ns st) (attr_names st)
                      (modules st ++ [(globals_, locals_)]) (cls_attrs st),
                    Ok tt))
    (fun _ => _setup_proxy globals_ locals_).

(** [ModuleClsProxy._update_module_proxies] *)
Fixpoint update_modules (name : string) (mods : list (loc * loc)) : PM unit :=
  match mods with
  | [] => pret tt
  | (globals_, locals_) :: rest =>
      pbind (_add_proxied_attribute name globals_ locals_) (fun _ =>
      update_modules name rest)
  end.

Definition _update_module_proxies (name : string) : PM unit :=
  fun st => update_modules name (modules st) st.

(** [_ModuleClsMeta.__setattr__(cls, key, value)] *)
Definition class_setattr (key : string) (value : cattr) : PM unit :=
  pbind (fun st => (PState (ns st) (attr_names st) (modules st)
                      (<[key := value]> (cls_attrs st)), Ok tt))
    (fun _ => _update_module_proxies key).

End Proxy.


(** No name of the set starts with an underscore. *)
Definition public_only (names : gset string) : Prop :=
  forall name, name ∈ names -> starts_with_underscore name = false.

(** What [_install_proxy] and [_remove_proxy] make of the dict
    [globals_] of a module. *)
Definition installed (self : nat) (v : string -> nat) (names : list string)
    (g : gmap string nsval) : gmap string nsval :=
  foldl (fun g a => <[a := NAttr (v a)]> g) (<["_proxy" := NProxy self]> g) names.

Definition removed (names : list string) (g : gmap string nsval)
    : gmap string nsval :=
  foldl (fun g a => delete a g) (<["_proxy" := NNone]> g) names.

End Proxy.

(** A proxied class with two public methods, one of them with legacy
    argument names, a public attribute that is not callable and a
    private method; a module whose [globals()] and [locals()] are one
    dict, at location 0. *)
Module ProxyExample.

Definition cls_attrs : gmap string Proxy.cattr :=
  <["add_column" := Proxy.Build_cattr true [] 1]>
    (<["create_table" := Proxy.Build_cattr true [("name", "table_name")] 2]>
       (<["impl" := Proxy.Build_cattr false [] 7]>
          (<["_private" := Proxy.Build_cattr true [] 3]> ∅))).

Definition inst_getattr (self : nat) (name : string) : option nat :=
  if decide (name = "impl") then Some 7 else None.

(** Before [create_module_class_proxy(globals(), locals())]. *)
Definition st_new : Proxy.pstate :=
  Proxy.PState [∅] ∅ [] cls_attrs.

(** After it. *)
Definition module_dict : gmap string Proxy.nsval :=
  <["add_column" := Proxy.NFunction "add_column"]>
    (<["create_table" := Proxy.NFunction "create_table"]>
       (<["_name_error" := Proxy.NNameError]>
          (<["_translate" := Proxy.NTranslate]> ∅))).

Definition st_setup : Proxy.pstate :=
  Proxy.PState [module_dict] {["impl"]} [(0, 0)] cls_attrs.

End ProxyExample.

(** Case analysis on the scrutinee of a [match] in a hypothesis. *)
Ltac case_hyp H :=
  repeat match type of H with
         | context [match ?x with _ => _ end] =>
             let E := fresh "E" in destruct x eqn:E; simpl in H
         end.

(** * Properties *)

(** ** The example heaps are what the methods build *)

Lemma example_init uselist :
  Dispatcher_init uselist empty_heap
  = (Example.heap_empty, Ok (Example.d0 uselist)).
Proof. reflexivity. Qed.

Lemma example_heap_foo :
  dispatch_for (Example.d0 false) (TStr "foo") "default" 1 Example.heap_empty
  = (Example.heap_foo, Ok 1).
Proof. reflexivity. Qed.

Lemma example_heap_multi :
  dispatch_for (Example.d0 true) (TStr "foo") "default" 1 Example.heap_empty
  = (Example.heap_multi [1], Ok 1).
Proof. reflexivity. Qed.

Lemma example_heap_special :
  (dispatch_for (Example.d0 false) (TCls Example.Grandparent) "special" 1 ;;;
   dispatch_for (Example.d0 false) (TCls Example.Parent) "default" 2)
    Example.heap_empty
  = (Example.heap_special, Ok 2).
Proof. reflexivity. Qed.

(** ** The monad and the heap primitives *)

Lemma bind_ok {A B} (c : M A) (k : A -> M B) h h' a :
  c h = (h', Ok a) -> bind c k h = k a h'.
Proof. intros E. unfold bind. by rewrite E. Qed.

Lemma bind_raise {A B} (c : M A) (k : A -> M B) h h' e :
  c h = (h', Raise e) -> bind c k h = (h', Raise e).
Proof. intros E. unfold bind. by rewrite E. Qed.

Lemma dict_contains_spec d k h m :
  dicts h !! d = Some m ->
  dict_contains d k h = (h, Ok (bool_decide (is_Some (m !! k)))).
Proof. intros E. unfold dict_contains. by rewrite E. Qed.

Lemma dict_contains_true d k h m v :
  dicts h !! d = Some m -> m !! k = Some v ->
  dict_contains d k h = (h, Ok true).
Proof.
  intros E Ek. rewrite (dict_contains_spec _ _ _ _ E).
  by rewrite bool_decide_eq_true_2; [|eauto].
Qed.

Lemma dict_contains_false d k h m :
  dicts h !! d = Some m -> m !! k = None ->
  dict_contains d k h = (h, Ok false).
Proof.
  intros E Ek. rewrite (dict_contains_spec _ _ _ _ E).
  rewrite bool_decide_eq_false_2; [done|]. rewrite Ek. by intros [? ?].
Qed.

Lemma dict_getitem_some d k h m v :
  dicts h !! d = Some m -> m !! k = Some v ->
  dict_getitem d k h = (h, Ok v).
Proof. intros E Ek. unfold dict_getitem. by rewrite E, Ek. Qed.

Lemma dict_contains_heap d k h : (dict_contains d k h).1 = h.
Proof. unfold dict_contains. by destruct (dicts h !! d). Qed.

Lemma dict_getitem_heap d k h : (dict_getitem d k h).1 = h.
Proof.
  unfold dict_getitem. destruct (dicts h !! d) as [m|]; [|done].
  by destruct (m !! k).
Qed.

(** ** dispatch reads the heap and leaves it as it was *)

Section DispatchFacts.

Variable mro : classid -> list classid.
Variable py_str : pyobj -> string.

Lemma dispatch_loop_heap self obj q ts h :
  (dispatch_loop py_str self obj q ts h).1 = h.
Proof.
  induction ts as [|s ts IH]; simpl.
  - by destruct (percent_s py_str no_dispatch_prefix obj).
  - unfold bind.
    destruct (bool_decide (q ≠ default_qualifier)).
    + pose proof (dict_contains_heap (_registry self) (s, q) h) as H1.
      destruct (dict_contains (_registry self) (s, q) h) as [h1 [[]|e]];
        simpl in H1; subst h1; [| |done].
      * pose proof (dict_getitem_heap (_registry self) (s, q) h) as H2.
        by destruct (dict_getitem (_registry self) (s, q) h) as [h2 [v|e]].
      * pose proof (dict_contains_heap (_registry self) (s, default_qualifier) h) as H2.
        destruct (dict_contains (_registry self) (s, default_qualifier) h)
          as [h2 [[]|e]]; simpl in H2; subst h2; [|done|done].
        pose proof (dict_getitem_heap (_registry self) (s, default_qualifier) h) as H3.
        by destruct (dict_getitem (_registry self) (s, default_qualifier) h)
          as [h3 [v|e]].
    + simpl.
      pose proof (dict_contains_heap (_registry self) (s, default_qualifier) h) as H2.
      destruct (dict_contains (_registry self) (s, default_qualifier) h)
        as [h2 [[]|e]]; simpl in H2; subst h2; [|done|done].
      pose proof (dict_getitem_heap (_registry self) (s, default_qualifier) h) as H3.
      by destruct (dict_getitem (_registry self) (s, default_qualifier) h)
        as [h3 [v|e]].
Qed.

(** A level of the probe sequence with nothing registered under the
    qualifier or under "default" is passed over. *)
Lemma dispatch_loop_skip self obj q s ts h m :
  dicts h !! _registry self = Some m ->
  m !! (s, q) = None -> m !! (s, default_qualifier) = None ->
  dispatch_loop py_str self obj q (s :: ts) h
  = dispatch_loop py_str self obj q ts h.
Proof.
  intros E Hq Hd. simpl. unfold bind.
  destruct (bool_decide (q ≠ default_qualifier)); simpl.
  - by rewrite (dict_contains_false _ _ _ _ E Hq),
      (dict_contains_false _ _ _ _ E Hd).
  - by rewrite (dict_contains_false _ _ _ _ E Hd).
Qed.

(** A handler under the exact, non-default qualifier is returned. *)
Lemma dispatch_loop_exact self obj q s ts h m v :
  dicts h !! _registry self = Some m ->
  q ≠ default_qualifier -> m !! (s, q) = Some v ->
  dispatch_loop py_str self obj q (s :: ts) h = (h, Ok (_fn_or_list self v)).
Proof.
  intros E Hne Hq. simpl. unfold bind.
  rewrite bool_decide_eq_true_2 by done.
  by rewrite (dict_contains_true _ _ _ _ _ E Hq),
    (dict_getitem_some _ _ _ _ _ E Hq).
Qed.

(** Otherwise the handler under "default" at the same level is. *)
Lemma dispatch_loop_default self obj q s ts h m v :
  dicts h !! _registry self = Some m ->
  q = default_qualifier \/ m !! (s, q) = None ->
  m !! (s, default_qualifier) = Some v ->
  dispatch_loop py_str self obj q (s :: ts) h = (h, Ok (_fn_or_list self v)).
Proof.
  intros E Hq Hd. simpl. unfold bind.
  destruct (bool_decide_reflect (q ≠ default_qualifier)) as [Hne|Heq]; simpl.
  - destruct Hq as [->|Hq]; [done|].
    by rewrite (dict_contains_false _ _ _ _ E Hq),
      (dict_contains_true _ _ _ _ _ E Hd), (dict_getitem_some _ _ _ _ _ E Hd).
  - by rewrite (dict_contains_true _ _ _ _ _ E Hd),
      (dict_getitem_some _ _ _ _ _ E Hd).
Qed.

Lemma dispatch_loop_app self obj q pre ts h m :
  dicts h !! _registry self = Some m ->
  Forall (fun s => m !! (s, q) = None /\ m !! (s, default_qualifier) = None) pre ->
  dispatch_loop py_str self obj q (pre ++ ts) h
  = dispatch_loop py_str self obj q ts h.
Proof.
  intros E. induction 1 as [|s pre [Hq Hd] _ IH]; [done|].
  rewrite <- app_comm_cons. by rewrite (dispatch_loop_skip _ _ _ _ _ _ _ E Hq Hd).
Qed.

End DispatchFacts.

(** ** Resolution order *)

(** C1.  [dispatch] walks the probe sequence most specific first.  At the
    first level [t] where anything is registered for the lookup, it returns
    the handler under the exact non-default qualifier if there is one, and
    otherwise the handler under "default" at that same level; so a
    "default" registration at [t] is returned even when a less specific
    ancestor [g] has a registration under the exact qualifier. *)
Theorem dispatch_most_specific_first
    (mro : classid -> list classid) (py_str : pyobj -> string)
    (self : Dispatcher) (h : heap) (m : gmap key value)
    (obj : pyobj) (q : string) (pre : list target) (t : target)
    (post : list target) :
  dicts h !! _registry self = Some m ->
  targets_of mro obj = pre ++ t :: post ->
  Forall (fun s => m !! (s, q) = None /\ m !! (s, default_qualifier) = None) pre ->
  (forall v, q ≠ default_qualifier -> m !! (t, q) = Some v ->
     dispatch mro py_str self obj q h = (h, Ok (_fn_or_list self v)))
  /\ (forall v, q = default_qualifier \/ m !! (t, q) = None ->
        m !! (t, default_qualifier) = Some v ->
        dispatch mro py_str self obj q h = (h, Ok (_fn_or_list self v)))
  /\ (forall v g vg, g ∈ post ->
        m !! (t, q) = None -> m !! (t, default_qualifier) = Some v ->
        m !! (g, q) = Some vg ->
        dispatch mro py_str self obj q h = (h, Ok (_fn_or_list self v))).
Proof.
  intros E Hts Hpre. unfold dispatch. rewrite Hts.
  rewrite (dispatch_loop_app _ _ _ _ _ _ _ _ E Hpre).
  split; [|split].
  - intros v Hne Hq. by apply (dispatch_loop_exact _ _ _ _ _ _ _ m).
  - intros v Hq Hd. by apply (dispatch_loop_default _ _ _ _ _ _ _ m).
  - intros v g vg _ Hq Hd _.
    apply (dispatch_loop_default _ _ _ _ _ _ _ m); auto.
Qed.

(** The registry with a "special" handler on [Grandparent] and a default
    handler on [Parent]: dispatching on a [Child] instance with qualifier
    "special" gives the [Parent] default handler. *)
Lemma dispatch_most_specific_first_witness :
  dispatch Example.mro Example.py_str (Example.d0 false)
    (OInst Example.Child 0) "special" Example.heap_special
  = (Example.heap_special, Ok (VFn 2)).
Proof.
  refine (proj2 (proj2 (dispatch_most_specific_first Example.mro Example.py_str
            (Example.d0 false) Example.heap_special Example.registry_special
            (OInst Example.Child 0) "special"
            [TCls Example.Child] (TCls Example.Parent)
            [TCls Example.Grandparent; TCls Example.object] _ _ _))
            (VFn 2) (TCls Example.Grandparent) (VFn 1) _ _ _ _).
  - reflexivity.
  - reflexivity.
  - repeat constructor.
  - constructor.
  - reflexivity.
  - reflexivity.
  - reflexivity.
Defined.

(** ** Registration *)

Lemma dispatch_for_single_dup self t q fn h m v :
  uselist self = false ->
  dicts h !! _registry self = Some m -> m !! (t, q) = Some v ->
  dispatch_for self t q fn h = (h, Raise AssertionError).
Proof.
  intros U E Hk. unfold dispatch_for. rewrite U.
  by rewrite (bind_ok _ _ _ _ _ (dict_contains_true _ _ _ _ _ E Hk)).
Qed.

Lemma dispatch_for_single_fresh self t q fn h m :
  uselist self = false ->
  dicts h !! _registry self = Some m -> m !! (t, q) = None ->
  dispatch_for self t q fn h
  = (Heap (<[_registry self := <[(t, q) := VFn fn]> m]> (dicts h)) (lists h), Ok fn).
Proof.
  intros U E Hk. unfold dispatch_for. rewrite U.
  rewrite (bind_ok _ _ _ _ _ (dict_contains_false _ _ _ _ E Hk)).
  unfold bind, dict_setitem. by rewrite E.
Qed.

(** The empty list allocated for [setdefault] is where [new_list] says. *)
Lemma lookup_new_list (ls : list (list fnid)) xs :
  (ls ++ [xs]) !! length ls = Some xs.
Proof. by rewrite lookup_app_r, Nat.sub_diag. Qed.

Lemma dispatch_for_raise self t q fn h h' e :
  dispatch_for self t q fn h = (h', Raise e) ->
  dicts h' = dicts h /\ (e = AssertionError -> h' = h).
Proof.
  unfold dispatch_for. destruct (uselist self).
  - unfold bind, new_list, dict_setdefault, list_append, ret; simpl.
    destruct (dicts h !! _registry self) as [m|]; simpl; [|by inversion 1].
    destruct (m !! (t, q)) as [v0|]; simpl.
    + destruct v0 as [f|l|c]; simpl; try (by inversion 1).
      destruct ((lists h ++ [[]]) !! l); simpl; by inversion 1.
    + rewrite lookup_new_list. by inversion 1.
  - unfold bind, dict_contains, dict_setitem, raise, ret.
    intros H.
    destruct (dicts h !! _registry self) as [m|] eqn:E; simpl in H;
      [|by inversion H].
    destruct (bool_decide (is_Some (m !! (t, q)))); simpl in H.
    + by inversion H.
    + rewrite E in H. by inversion H.
Qed.

(** C3.  In a dispatcher with [uselist = False], registering at a key that
    already holds a handler fails on the [assert] (the duplicate
    registration error) and leaves the existing handler in place, while
    registering at the same target under a qualifier that holds nothing
    succeeds and keeps the existing handler. *)
Theorem single_registration_rejects_duplicates
    (self : Dispatcher) (h : heap) (m : gmap key value)
    (t : target) (q : string) (v : value) (fn : fnid) :
  uselist self = false ->
  dicts h !! _registry self = Some m ->
  m !! (t, q) = Some v ->
  dispatch_for self t q fn h = (h, Raise AssertionError)
  /\ (forall q' fn', m !! (t, q') = None ->
        exists h' m',
          dispatch_for self t q' fn' h = (h', Ok fn')
          /\ dicts h' !! _registry self = Some m'
          /\ m' !! (t, q') = Some (VFn fn')
          /\ m' !! (t, q) = Some v).
Proof.
  intros U E Hk. split.
  - by apply (dispatch_for_single_dup _ _ _ _ _ m v).
  - intros q' fn' Hq'.
    eexists _, (<[(t, q') := VFn fn']> m).
    split; [by apply dispatch_for_single_fresh|].
    simpl. split; [|split].
    + apply list_lookup_insert_eq. by eapply lookup_lt_Some.
    + apply lookup_insert_eq.
    + rewrite lookup_insert_ne; [done|]. congruence.
Qed.

Lemma single_registration_rejects_duplicates_witness :
  dispatch_for (Example.d0 false) (TStr "foo") "default" 2 Example.heap_foo
  = (Example.heap_foo, Raise AssertionError).
Proof.
  refine (proj1 (single_registration_rejects_duplicates (Example.d0 false)
                   Example.heap_foo Example.registry_foo
                   (TStr "foo") "default" (VFn 1) 2 _ _ _));
    reflexivity.
Defined.

(** C9.  A registration that succeeds returns the very handler it was
    given, so the result can be decorated again: the second registration
    receives, and returns, the same handler. *)
Theorem decorate_returns_handler
    (self : Dispatcher) (t : target) (q : string) (fn r : fnid) (h h' : heap) :
  dispatch_for self t q fn h = (h', Ok r) ->
  r = fn
  /\ (forall self2 t2 q2 h'' r2,
        dispatch_for self2 t2 q2 r h' = (h'', Ok r2) -> r2 = fn).
Proof.
  assert (Hret : forall s t0 q0 f h0 h1 r0,
             dispatch_for s t0 q0 f h0 = (h1, Ok r0) -> r0 = f).
  { intros s t0 q0 f h0 h1 r0. unfold dispatch_for, bind, ret, raise.
    intros H. case_hyp H; by inversion H. }
  intros H. pose proof (Hret _ _ _ _ _ _ _ H) as ->.
  split; [done|]. intros self2 t2 q2 h'' r2 H2. by eapply Hret.
Qed.

Lemma decorate_returns_handler_witness :
  (5 : fnid) = 5
  /\ (forall self2 t2 q2 h'' r2,
        dispatch_for self2 t2 q2 5 Example.heap_five = (h'', Ok r2) -> r2 = 5).
Proof.
  exact (decorate_returns_handler (Example.d0 false) (TStr "foo") "default"
           5 5 Example.heap_empty Example.heap_five eq_refl).
Defined.

(** C8.  A registration that fails leaves the registry as it was (on the
    duplicate-registration error the whole heap is untouched), and
    [dispatch] hands back the heap it was given, whether it returns a
    handler or raises. *)
Theorem register_and_dispatch_all_or_nothing
    (mro : classid -> list classid) (py_str : pyobj -> string)
    (self : Dispatcher) (t : target) (q : string) (fn : fnid)
    (obj : pyobj) (q' : string) (h : heap) :
  left_unchanged h (dispatch_for self t q fn h)
  /\ (dispatch mro py_str self obj q' h).1 = h.
Proof.
  split.
  - unfold left_unchanged.
    destruct (dispatch_for self t q fn h) as [h' [r|e]] eqn:E; [done|].
    destruct (dispatch_for_raise _ _ _ _ _ _ _ E) as [Hd Ha].
    destruct e; auto.
  - apply dispatch_loop_heap.
Qed.

(** ** Registration in a [uselist] dispatcher *)

Lemma dispatch_for_multi_fresh self t q fn h m :
  uselist self = true ->
  dicts h !! _registry self = Some m -> m !! (t, q) = None ->
  dispatch_for self t q fn h
  = (Heap (<[_registry self := <[(t, q) := VList (length (lists h))]> m]> (dicts h))
          (lists h ++ [[fn]]), Ok fn).
Proof.
  intros U E Hk. unfold dispatch_for. rewrite U.
  unfold bind, new_list, dict_setdefault, list_append, ret; simpl.
  rewrite E, Hk; simpl. rewrite lookup_new_list.
  rewrite insert_app_r_alt by done. by rewrite Nat.sub_diag.
Qed.

Lemma dispatch_for_multi_present self t q fn h m l xs :
  uselist self = true ->
  dicts h !! _registry self = Some m -> m !! (t, q) = Some (VList l) ->
  lists h !! l = Some xs ->
  dispatch_for self t q fn h
  = (Heap (dicts h) (<[l := xs ++ [fn]]> (lists h) ++ [[]]), Ok fn).
Proof.
  intros U E Hk Hl. unfold dispatch_for. rewrite U.
  unfold bind, new_list, dict_setdefault, list_append, ret; simpl.
  rewrite E, Hk; simpl.
  rewrite (lookup_app_l_Some _ _ _ _ Hl).
  rewrite insert_app_l by (by eapply lookup_lt_Some). done.
Qed.

(** Registering [fns] one after the other under a key that already holds
    the list [l] appends them to [l], in order, and touches no dict and no
    other list. *)
Lemma register_all_present self t q fns : forall h m l xs,
  uselist self = true ->
  dicts h !! _registry self = Some m -> m !! (t, q) = Some (VList l) ->
  lists h !! l = Some xs ->
  exists h',
    register_all self t q fns h = (h', Ok tt)
    /\ dicts h' = dicts h
    /\ lists h' !! l = Some (xs ++ fns)
    /\ (forall l', l' ≠ l -> l' < length (lists h) ->
          lists h' !! l' = lists h !! l').
Proof.
  induction fns as [|fn fns IH]; intros h m l xs U E Hk Hl.
  - exists h. rewrite app_nil_r. by repeat split.
  - simpl.
    rewrite (bind_ok _ _ _ _ _ (dispatch_for_multi_present _ _ _ fn _ _ _ _ U E Hk Hl)).
    pose proof (lookup_lt_Some _ _ _ Hl) as Hlt.
    set (h1 := Heap (dicts h) (<[l := xs ++ [fn]]> (lists h) ++ [[]])).
    assert (Hl1 : lists h1 !! l = Some (xs ++ [fn])).
    { simpl. rewrite lookup_app_l by (by rewrite length_insert).
      by apply list_lookup_insert_eq. }
    destruct (IH h1 m l (xs ++ [fn]) U E Hk Hl1) as (h' & Hrun & Hd & Hl' & Hoth).
    exists h'. split; [done|]. split; [done|]. split.
    + by rewrite Hl', <- app_assoc.
    + intros l' Hne Hlt'. rewrite Hoth; [|done|].
      * simpl. rewrite lookup_app_l by (by rewrite length_insert).
        by rewrite list_lookup_insert_ne.
      * simpl. rewrite length_app, length_insert. lia.
Qed.

(** Registered under a key that holds nothing, they make up a new list. *)
Lemma register_all_fresh self t q fn fns h m :
  uselist self = true ->
  dicts h !! _registry self = Some m -> m !! (t, q) = None ->
  exists h',
    register_all self t q (fn :: fns) h = (h', Ok tt)
    /\ dicts h' !! _registry self
       = Some (<[(t, q) := VList (length (lists h))]> m)
    /\ lists h' !! length (lists h) = Some (fn :: fns)
    /\ (forall l', l' < length (lists h) -> lists h' !! l' = lists h !! l').
Proof.
  intros U E Hk. simpl.
  rewrite (bind_ok _ _ _ _ _ (dispatch_for_multi_fresh _ _ _ fn _ _ U E Hk)).
  set (l := length (lists h)).
  set (m1 := <[(t, q) := VList l]> m).
  set (h1 := Heap (<[_registry self := m1]> (dicts h)) (lists h ++ [[fn]])).
  assert (E1 : dicts h1 !! _registry self = Some m1).
  { simpl. apply list_lookup_insert_eq. by eapply lookup_lt_Some. }
  assert (Hk1 : m1 !! (t, q) = Some (VList l)) by apply lookup_insert_eq.
  assert (Hl1 : lists h1 !! l = Some [fn]) by apply lookup_new_list.
  destruct (register_all_present self t q fns h1 m1 l [fn] U E1 Hk1 Hl1)
    as (h' & Hrun & Hd & Hl' & Hoth).
  exists h'. split; [done|]. split; [by rewrite Hd|]. split; [done|].
  intros l' Hlt. rewrite Hoth.
  - simpl. by rewrite lookup_app_l.
  - unfold l. lia.
  - simpl. rewrite length_app. lia.
Qed.

(** [multi_registry] holds of a new [uselist] dispatcher and is kept by
    every registration, which therefore always succeeds. *)
Lemma multi_registry_init h h' d :
  Dispatcher_init true h = (h', Ok d) -> multi_registry h' d.
Proof.
  unfold Dispatcher_init, bind, new_dict, ret. intros [= <- <-].
  exists ∅. split.
  - simpl. by rewrite lookup_app_r, Nat.sub_diag.
  - intros k v Hk. by rewrite lookup_empty in Hk.
Qed.

(** X18.  In a [uselist] dispatcher whose slots are lists, a
    registration never fails, whether the key holds handlers already or
    not, and the slots are lists afterwards as well. *)
Lemma multi_registry_dispatch_for self t q fn h :
  uselist self = true ->
  multi_registry h self ->
  exists h', dispatch_for self t q fn h = (h', Ok fn) /\ multi_registry h' self.
Proof.
  intros U (m & E & Hwf).
  pose proof (lookup_lt_Some _ _ _ E) as Hlt.
  destruct (m !! (t, q)) as [v|] eqn:Hk.
  - destruct (Hwf _ _ Hk) as (l & xs & -> & Hl).
    eexists. split; [by eapply dispatch_for_multi_present|].
    exists m. split; [done|].
    intros k v Hv. destruct (Hwf _ _ Hv) as (l0 & fns0 & -> & Hl0).
    pose proof (lookup_lt_Some _ _ _ Hl0) as Hlt0.
    destruct (decide (l0 = l)) as [->|Hne].
    + exists l, (xs ++ [fn]). split; [done|]. simpl.
      rewrite lookup_app_l by (by rewrite length_insert).
      by apply list_lookup_insert_eq.
    + exists l0, fns0. split; [done|]. simpl.
      rewrite lookup_app_l by (by rewrite length_insert).
      by rewrite list_lookup_insert_ne.
  - eexists. split; [by eapply dispatch_for_multi_fresh|].
    eexists. split; [simpl; by apply list_lookup_insert_eq|].
    intros k v Hv. destruct (decide (k = (t, q))) as [->|Hne].
    + rewrite lookup_insert_eq in Hv. injection Hv as <-.
      exists (length (lists h)), [fn]. split; [done|]. apply lookup_new_list.
    + rewrite lookup_insert_ne in Hv by done.
      destruct (Hwf _ _ Hv) as (l0 & fns0 & -> & Hl0).
      exists l0, fns0. split; [done|]. simpl. by apply lookup_app_l_Some.
Qed.

(** ** The aggregate of a [uselist] dispatcher *)

Section CallFacts.

Context {args W : Type}.
Variable fn_body : fnid -> args -> W -> W * option exn.

Lemma go_loop_all_return a fns w w' :
  all_return fn_body a fns w w' ->
  go_loop args W fn_body fns a w = (map (fun fn => Call fn a) fns, w', None).
Proof.
  induction 1 as [w|fn rest w w1 w2 Hfn _ IH]; simpl; [done|].
  by rewrite Hfn, IH.
Qed.

Lemma go_loop_first_raise a pre fn post w w1 w2 e :
  all_return fn_body a pre w w1 ->
  fn_body fn a w1 = (w2, Some e) ->
  go_loop args W fn_body (pre ++ fn :: post) a w
  = (map (fun fn => Call fn a) (pre ++ [fn]), w2, Some e).
Proof.
  intros Hpre Hfn.
  induction Hpre as [w|g rest w w' w'' Hg _ IH]; simpl.
  - by rewrite Hfn.
  - by rewrite Hg, IH.
Qed.

(** Every run of the loop is one of the two above. *)
Lemma go_loop_inv a fns : forall w tr w' r,
  go_loop args W fn_body fns a w = (tr, w', r) ->
  (r = None /\ all_return fn_body a fns w w'
   /\ tr = map (fun fn => Call fn a) fns)
  \/ (exists pre fn post w1 e,
        r = Some e /\ fns = pre ++ fn :: post
        /\ all_return fn_body a pre w w1
        /\ fn_body fn a w1 = (w', Some e)
        /\ tr = map (fun fn => Call fn a) (pre ++ [fn])).
Proof.
  induction fns as [|fn fns IH]; intros w tr w' r; simpl.
  - intros [= <- <- <-]. left. repeat split. constructor.
  - destruct (fn_body fn a w) as [w1 [e|]] eqn:Hfn.
    + intros [= <- <- <-]. right.
      exists [], fn, fns, w, e. repeat split; [constructor|done].
    + destruct (go_loop args W fn_body fns a w1) as [[tr1 w2] r1] eqn:Hrest.
      intros [= <- <- <-].
      destruct (IH _ _ _ _ Hrest) as [(-> & Hall & ->)|
        (pre & g & post & w3 & e & -> & -> & Hall & Hg & ->)].
      * left. repeat split. by econstructor.
      * right. exists (fn :: pre), g, post, w3, e.
        repeat split; [by econstructor|done].
Qed.

(** The calls made are a prefix of the list, in its order. *)
Lemma go_loop_trace_prefix a fns w :
  (go_loop args W fn_body fns a w).1.1 `prefix_of` map (fun fn => Call fn a) fns.
Proof.
  destruct (go_loop args W fn_body fns a w) as [[tr w'] r] eqn:E. simpl.
  destruct (go_loop_inv _ _ _ _ _ _ E) as [(_ & _ & ->)|
    (pre & g & post & w3 & e & _ & -> & _ & _ & ->)]; [done|].
  rewrite !map_app. simpl. apply prefix_app, prefix_cons, prefix_nil.
Qed.

End CallFacts.

Section AggregateFacts.

Variable mro : classid -> list classid.
Variable py_str : pyobj -> string.

(** What [dispatch] returns was found in the registry under one of the
    probed targets, and went through [_fn_or_list]. *)
Lemma dispatch_loop_ok self obj q ts h m h' r :
  dicts h !! _registry self = Some m ->
  dispatch_loop py_str self obj q ts h = (h', Ok r) ->
  h' = h /\ exists s q0 v, s ∈ ts /\ m !! (s, q0) = Some v
                           /\ r = _fn_or_list self v.
Proof.
  intros E. induction ts as [|s ts IH]; simpl.
  - destruct (percent_s py_str no_dispatch_prefix obj); by inversion 1.
  - unfold bind.
    destruct (m !! (s, default_qualifier)) as [vd|] eqn:Hd.
    + destruct (bool_decide (q ≠ default_qualifier)); simpl.
      * destruct (m !! (s, q)) as [vq|] eqn:Hq.
        -- rewrite (dict_contains_true _ _ _ _ _ E Hq),
             (dict_getitem_some _ _ _ _ _ E Hq).
           intros [= <- <-]. split; [done|].
           exists s, q, vq. repeat split; [by left|done].
        -- rewrite (dict_contains_false _ _ _ _ E Hq),
             (dict_contains_true _ _ _ _ _ E Hd),
             (dict_getitem_some _ _ _ _ _ E Hd).
           intros [= <- <-]. split; [done|].
           exists s, default_qualifier, vd. repeat split; [by left|done].
      * rewrite (dict_contains_true _ _ _ _ _ E Hd),
          (dict_getitem_some _ _ _ _ _ E Hd).
        intros [= <- <-]. split; [done|].
        exists s, default_qualifier, vd. repeat split; [by left|done].
    + assert (Hrest : dispatch_loop py_str self obj q ts h = (h', Ok r) ->
                h' = h /\ exists s0 q0 v, s0 ∈ s :: ts /\ m !! (s0, q0) = Some v
                                          /\ r = _fn_or_list self v).
      { intros H. destruct (IH H) as (-> & s0 & q0 & v & Hin & Hv & ->).
        split; [done|]. exists s0, q0, v. repeat split; [by right|done]. }
      destruct (bool_decide (q ≠ default_qualifier)); simpl.
      * destruct (m !! (s, q)) as [vq|] eqn:Hq.
        -- rewrite (dict_contains_true _ _ _ _ _ E Hq),
             (dict_getitem_some _ _ _ _ _ E Hq).
           intros [= <- <-]. split; [done|].
           exists s, q, vq. repeat split; [by left|done].
        -- by rewrite (dict_contains_false _ _ _ _ E Hq),
             (dict_contains_false _ _ _ _ E Hd).
      * by rewrite (dict_contains_false _ _ _ _ E Hd).
Qed.

End AggregateFacts.

(** C4.  In a dispatcher with [uselist = True], after the handlers
    [fn :: fns] have been registered in sequence under a key [(t, q)] that
    held nothing, dispatching on that key returns the aggregate; invoking
    it calls handlers of [fn :: fns] only, in registration order and none
    twice, and when each handler returns it calls every one of them, once,
    in registration order. *)
Theorem multi_dispatch_calls_all_in_order
    (mro : classid -> list classid) (py_str : pyobj -> string)
    {args W : Type} (fn_body : fnid -> args -> W -> W * option exn)
    (self : Dispatcher) (h : heap) (m : gmap key value)
    (obj : pyobj) (t : target) (rest : list target) (q : string)
    (fn : fnid) (fns : list fnid) :
  uselist self = true ->
  dicts h !! _registry self = Some m ->
  m !! (t, q) = None ->
  targets_of mro obj = t :: rest ->
  exists h' agg,
    register_all self t q (fn :: fns) h = (h', Ok tt)
    /\ dispatch mro py_str self obj q h' = (h', Ok agg)
    /\ forall (a : args) (w : W),
         (call args W fn_body h' agg a w).1.1
           `prefix_of` map (fun f => Call f a) (fn :: fns)
         /\ forall w', all_return fn_body a (fn :: fns) w w' ->
              call args W fn_body h' agg a w
              = (map (fun f => Call f a) (fn :: fns), w', None).
Proof.
  intros U E Hk Hts.
  destruct (register_all_fresh self t q fn fns h m U E Hk)
    as (h' & Hrun & Hd & Hl & _).
  set (l := length (lists h)) in *.
  exists h', (VGo (VList l)). split; [done|]. split.
  - unfold dispatch. rewrite Hts.
    replace (VGo (VList l)) with (_fn_or_list self (VList l))
      by (unfold _fn_or_list; by rewrite U).
    destruct (decide (q = default_qualifier)) as [->|Hne].
    + eapply dispatch_loop_default; [done|by left|apply lookup_insert_eq].
    + eapply dispatch_loop_exact; [done|done|apply lookup_insert_eq].
  - intros a w. unfold call. rewrite Hl. split.
    + apply go_loop_trace_prefix.
    + apply go_loop_all_return.
Qed.

(** Three handlers registered under [("foo", "default")] in an empty
    [uselist] dispatcher. *)
Lemma multi_dispatch_calls_all_in_order_witness :
  exists h' agg,
    register_all (Example.d0 true) (TStr "foo") "default" [1; 2; 3]
      Example.heap_empty = (h', Ok tt)
    /\ dispatch Example.mro Example.py_str (Example.d0 true) (OStr "foo")
         "default" h' = (h', Ok agg)
    /\ forall (a : unit) (w : nat),
         (call unit nat Example.fn_body h' agg a w).1.1
           `prefix_of` map (fun f => Call f a) [1; 2; 3]
         /\ forall w', all_return Example.fn_body a [1; 2; 3] w w' ->
              call unit nat Example.fn_body h' agg a w
              = (map (fun f => Call f a) [1; 2; 3], w', None).
Proof.
  refine (multi_dispatch_calls_all_in_order Example.mro Example.py_str
            Example.fn_body (Example.d0 true) Example.heap_empty ∅ (OStr "foo")
            (TStr "foo") [] "default" 1 [2; 3] _ _ _ _);
    reflexivity.
Defined.

(** C7.  In a dispatcher with [uselist = True] the value [dispatch]
    returns is the aggregate over the list of the resolved slot.  Invoked,
    it calls the handlers of that list in order; if a handler raises after
    the ones before it returned, the aggregate raises that same exception
    at once: the trace of calls ends with the raising handler, the
    handlers after it are not called, and nothing is collected. *)
Theorem aggregate_fails_fast
    (mro : classid -> list classid) (py_str : pyobj -> string)
    {args W : Type} (fn_body : fnid -> args -> W -> W * option exn)
    (self : Dispatcher) (h h' : heap) (obj : pyobj) (q : string)
    (agg : value) :
  uselist self = true ->
  multi_registry h self ->
  dispatch mro py_str self obj q h = (h', Ok agg) ->
  exists l fns,
    agg = VGo (VList l) /\ lists h' !! l = Some fns
    /\ forall (a : args) (w : W),
         (forall w', all_return fn_body a fns w w' ->
            call args W fn_body h' agg a w
            = (map (fun f => Call f a) fns, w', None))
         /\ (forall pre fn post w1 w2 e,
               fns = pre ++ fn :: post ->
               all_return fn_body a pre w w1 ->
               fn_body fn a w1 = (w2, Some e) ->
               call args W fn_body h' agg a w
               = (map (fun f => Call f a) (pre ++ [fn]), w2, Some e)).
Proof.
  intros U (m & E & Hwf) Hd.
  destruct (dispatch_loop_ok py_str _ _ _ _ _ _ _ _ E Hd)
    as (-> & s & q0 & v & _ & Hv & ->).
  destruct (Hwf _ _ Hv) as (l & fns & -> & Hl).
  exists l, fns. unfold _fn_or_list. rewrite U.
  split; [done|]. split; [done|].
  intros a w. unfold call. rewrite Hl. split.
  - apply go_loop_all_return.
  - intros pre fn post w1 w2 e ->. apply go_loop_first_raise.
Qed.

(** The slot holds handlers [1], [0], [2]; handler [0] raises. *)
Lemma aggregate_fails_fast_witness :
  call unit nat Example.fn_body (Example.heap_multi [1; 0; 2])
    (VGo (VList 0)) tt 0
  = ([Call 1 tt; Call 0 tt], 2, Some (UserError 1)).
Proof.
  assert (Hwf : multi_registry (Example.heap_multi [1; 0; 2]) (Example.d0 true)).
  { exists Example.registry_multi. split; [reflexivity|].
    unfold Example.registry_multi.
    intros k v [_ <-]%lookup_singleton_Some. by exists 0, [1; 0; 2]. }
  destruct (aggregate_fails_fast Example.mro Example.py_str Example.fn_body
              (Example.d0 true) (Example.heap_multi [1; 0; 2])
              (Example.heap_multi [1; 0; 2]) (OStr "foo") "default"
              (VGo (VList 0)) eq_refl Hwf eq_refl)
    as (l & fns & Hagg & Hl & Hcall).
  injection Hagg as <-. injection Hl as <-.
  refine (proj2 (Hcall tt 0) [1] 0 [2] 1 2 (UserError 1) eq_refl _ eq_refl).
  repeat econstructor.
Defined.

(** ** The probe sequence *)

(** C5.  [dispatch] runs its loop over the probe sequence [targets_of]:
    the string itself for a string; for a class its [__mro__], which
    starts with the class and ends with [object]; for any other object the
    [__mro__] of its class.  That every [__mro__] starts with its class
    and ends with [object] is the interpreter's doing and is assumed. *)
Theorem probe_sequence
    (mro : classid -> list classid) (py_str : pyobj -> string)
    (object : classid) (self : Dispatcher) (obj : pyobj) (q : string) :
  (forall c, head (mro c) = Some c) ->
  (forall c, last (mro c) = Some object) ->
  dispatch mro py_str self obj q
  = dispatch_loop py_str self obj q (targets_of mro obj)
  /\ match obj with
     | OStr s => targets_of mro obj = [TStr s]
     | OType c =>
         targets_of mro obj = TCls <$> mro c
         /\ head (targets_of mro obj) = Some (TCls c)
         /\ last (targets_of mro obj) = Some (TCls object)
     | OTuple c _ | OInst c _ => targets_of mro obj = targets_of mro (OType c)
     end.
Proof.
  intros Hhd Hlast. split; [done|].
  destruct obj as [s|c|c items|c oid]; simpl; try done.
  split; [done|]. split.
  - specialize (Hhd c). by destruct (mro c) as [|c0 ?]; simplify_eq/=.
  - by rewrite fmap_last, Hlast.
Qed.

Lemma probe_sequence_witness :
  targets_of Example.mro (OType Example.Child)
  = [TCls Example.Child; TCls Example.Parent; TCls Example.Grandparent;
     TCls Example.object]
  /\ head (targets_of Example.mro (OType Example.Child))
     = Some (TCls Example.Child)
  /\ last (targets_of Example.mro (OType Example.Child))
     = Some (TCls Example.object).
Proof.
  refine (proj2 (probe_sequence Example.mro Example.py_str Example.object
                   (Example.d0 false) (OType Example.Child) "default" _ _)).
  - intros c. do 4 (destruct c as [|c]; [reflexivity|]). reflexivity.
  - intros c. do 4 (destruct c as [|c]; [reflexivity|]). reflexivity.
Defined.

(** ** No dispatch target *)

Section NoTarget.

Variable mro : classid -> list classid.
Variable py_str : pyobj -> string.

(** When nothing in the probe sequence is registered, the loop runs to
    its [else] clause, which formats the message with [%]. *)
Lemma dispatch_unmatched self obj q h m :
  dicts h !! _registry self = Some m ->
  Forall (fun s => m !! (s, q) = None /\ m !! (s, default_qualifier) = None)
    (targets_of mro obj) ->
  dispatch mro py_str self obj q h
  = (h, match percent_s py_str no_dispatch_prefix obj with
        | Ok msg => Raise (ValueError msg)
        | Raise e => Raise e
        end).
Proof.
  intros E Hall. unfold dispatch.
  rewrite <- (app_nil_r (targets_of mro obj)).
  rewrite (dispatch_loop_app _ _ _ _ _ _ _ _ E Hall). simpl.
  by destruct (percent_s py_str no_dispatch_prefix obj).
Qed.

(** X19.  When nothing in the probe sequence of a target is registered,
    under the qualifier or under "default", and the target is not a
    tuple, [dispatch] leaves the heap as it is and raises the
    [ValueError] whose message ends with [str(obj)]. *)
Lemma dispatch_unmatched_not_tuple self obj q h m :
  dicts h !! _registry self = Some m ->
  Forall (fun s => m !! (s, q) = None /\ m !! (s, default_qualifier) = None)
    (targets_of mro obj) ->
  is_tuple obj = false ->
  dispatch mro py_str self obj q h
  = (h, Raise (ValueError (no_dispatch_prefix ++ py_str obj)%string)).
Proof.
  intros E Hall Hnt. rewrite (dispatch_unmatched _ _ _ _ _ E Hall).
  by destruct obj.
Qed.

End NoTarget.

(** C6.  The code at a target that is a two-element tuple, in a
    dispatcher with nothing registered: building the message of the
    [ValueError] with [%] takes the tuple for the argument list, and
    [dispatch] raises [TypeError] instead of the error naming the
    target. *)
Theorem dispatch_unmatched_tuple :
  dispatch Example.mro Example.py_str (Example.d0 false) Example.pair_ab
    "default" Example.heap_empty
  = (Example.heap_empty,
     Raise (TypeError "not all arguments converted during string formatting")).
Proof. reflexivity. Qed.

(** ** branch *)

(** Whatever the dispatcher, its branch is built by [Dispatcher()]: the
    flag [uselist] of the branch is [False]. *)
Lemma branch_uselist self h h' d :
  branch self h = (h', Ok d) -> uselist d = false.
Proof.
  unfold branch, Dispatcher_init, bind, ret, new_dict; simpl.
  destruct (uselist self); simpl.
  - destruct (dict_keys (_registry self) _) as [h1 [ks|e]]; [|by inversion 1].
    destruct (copy_slots _ _ ks h1) as [h2 [[]|e]]; by inversion 1.
  - destruct (dict_update _ _ _) as [h1 [[]|e]]; by inversion 1.
Qed.

(** A registration through one dispatcher leaves the registry dict of a
    dispatcher with another dict as it was. *)
Lemma dispatch_for_other_registry d1 d2 t q fn h h' r :
  _registry d1 ≠ _registry d2 ->
  dispatch_for d1 t q fn h = (h', r) ->
  dicts h' !! _registry d2 = dicts h !! _registry d2.
Proof.
  intros Hne. unfold dispatch_for.
  destruct (uselist d1).
  - unfold bind, new_list, dict_setdefault, list_append, ret; simpl.
    destruct (dicts h !! _registry d1) as [m|]; simpl; [|by intros [= <- _]].
    destruct (m !! (t, q)) as [v0|]; simpl.
    + destruct v0 as [f|l|c]; simpl; try (by intros [= <- _]).
      destruct ((lists h ++ [[]]) !! l); simpl; by intros [= <- _].
    + rewrite lookup_new_list. intros [= <- _]. simpl.
      by apply list_lookup_insert_ne.
  - unfold bind, dict_contains, dict_setitem, raise, ret.
    destruct (dicts h !! _registry d1) as [m|] eqn:E; simpl;
      [|by intros [= <- _]].
    destruct (bool_decide (is_Some (m !! (t, q)))); simpl.
    + by intros [= <- _].
    + rewrite E. intros [= <- _]. simpl. by apply list_lookup_insert_ne.
Qed.

(** What [dispatch] returns depends on the dispatcher only through the
    contents of its registry and its [uselist] flag. *)
Lemma dispatch_loop_same_registry py_str d1 d2 obj q ts h m :
  dicts h !! _registry d1 = Some m ->
  dicts h !! _registry d2 = Some m ->
  uselist d1 = uselist d2 ->
  dispatch_loop py_str d1 obj q ts h = dispatch_loop py_str d2 obj q ts h.
Proof.
  intros E1 E2 U. induction ts as [|s ts IH]; simpl; [done|].
  unfold bind, _fn_or_list, ret. rewrite U.
  destruct (bool_decide (q ≠ default_qualifier)); simpl;
    unfold dict_contains, dict_getitem; rewrite ?E1, ?E2;
    repeat (match goal with
            | |- context [bool_decide ?P] => destruct (bool_decide P); simpl
            end; rewrite ?E1, ?E2);
    repeat match goal with
           | |- context [m !! ?k] => destruct (m !! k)
           end; done.
Qed.

(** The branch of a dispatcher with [uselist = False] is a new dict with
    the entries of the original. *)
Lemma branch_single self h m :
  uselist self = false ->
  dicts h !! _registry self = Some m ->
  branch self h
  = (Heap (dicts h ++ [m]) (lists h),
     Ok {| _registry := length (dicts h); uselist := false |}).
Proof.
  intros U E. unfold branch, Dispatcher_init, bind, ret, new_dict; simpl.
  rewrite U. unfold dict_update; simpl.
  rewrite lookup_app_r, Nat.sub_diag by done. simpl.
  rewrite (lookup_app_l_Some _ _ _ _ E).
  rewrite insert_app_r_alt, Nat.sub_diag by done. simpl.
  by rewrite (right_id_L ∅ (∪)).
Qed.

(** X16.  The branch of a dispatcher with [uselist = False] resolves
    what the original resolves, and from then on a registration through
    either of the two is not seen by the other. *)
Lemma branch_single_independent mro py_str self h m :
  uselist self = false ->
  dicts h !! _registry self = Some m ->
  exists h' b,
    branch self h = (h', Ok b)
    /\ (forall obj q, dispatch mro py_str b obj q h'
                     = dispatch mro py_str self obj q h')
    /\ (forall t q fn h'' r,
          dispatch_for b t q fn h' = (h'', r) ->
          dicts h'' !! _registry self = Some m)
    /\ (forall t q fn h'' r,
          dispatch_for self t q fn h' = (h'', r) ->
          dicts h'' !! _registry b = Some m).
Proof.
  intros U E. eexists _, _. split; [by apply branch_single|].
  pose proof (lookup_lt_Some _ _ _ E) as Hlt.
  assert (E1 : (dicts h ++ [m]) !! _registry self = Some m)
    by by apply lookup_app_l_Some.
  assert (E2 : (dicts h ++ [m]) !! length (dicts h) = Some m)
    by by rewrite lookup_app_r, Nat.sub_diag.
  split; [|split].
  - intros obj q. unfold dispatch.
    by apply (dispatch_loop_same_registry _ _ _ _ _ _ _ m).
  - intros t q fn h'' r Hreg.
    by rewrite (dispatch_for_other_registry
                  {| _registry := length (dicts h); uselist := false |} self
                  _ _ _ _ _ _ ltac:(simpl; lia) Hreg).
  - intros t q fn h'' r Hreg.
    by rewrite (dispatch_for_other_registry self
                  {| _registry := length (dicts h); uselist := false |}
                  _ _ _ _ _ _ ltac:(simpl; lia) Hreg).
Qed.

(** The copying loop of the [uselist] arm: every key of [ks] gets, in
    the new registry, a list object allocated by the loop with the
    elements of the original's list; the original's dict and the lists
    that existed before are left as they were. *)
Lemma copy_slots_spec (src dst : loc) (m : gmap key value) (ks : list key) :
  forall (h : heap) (md : gmap key value),
  src ≠ dst ->
  dicts h !! src = Some m -> dicts h !! dst = Some md ->
  (forall k, k ∈ ks ->
     exists l fns, m !! k = Some (VList l) /\ lists h !! l = Some fns) ->
  exists h' md',
    copy_slots src dst ks h = (h', Ok tt)
    /\ dicts h' !! src = Some m
    /\ dicts h' !! dst = Some md'
    /\ (forall l, l < length (lists h) -> lists h' !! l = lists h !! l)
    /\ (forall k, k ∉ ks -> md' !! k = md !! k)
    /\ (forall k l fns, k ∈ ks ->
          m !! k = Some (VList l) -> lists h !! l = Some fns ->
          exists l', md' !! k = Some (VList l')
                     /\ (length (lists h) ≤ l')%nat
                     /\ lists h' !! l' = Some fns).
Proof.
  induction ks as [|k ks IH]; intros h md Hne Es Ed Hks.
  - exists h, md. repeat split; try done. intros k l fns Hin. by inversion Hin.
  - destruct (Hks k) as (l & fns & Hk & Hl); [by left|].
    set (L := length (lists h)).
    set (md2 := <[k := VList L]> md).
    set (h2 := Heap (<[dst := md2]> (dicts h)) (lists h ++ [fns])).
    assert (Hstep : copy_slots src dst (k :: ks) h = copy_slots src dst ks h2).
    { simpl. rewrite (bind_ok _ _ _ _ _ (dict_getitem_some _ _ _ _ _ Es Hk)).
      unfold bind at 1. unfold list_copy. rewrite Hl. unfold new_list.
      unfold bind at 1. unfold dict_setitem. simpl. by rewrite Ed. }
    assert (Es2 : dicts h2 !! src = Some m)
      by (simpl; by rewrite list_lookup_insert_ne).
    assert (Ed2 : dicts h2 !! dst = Some md2).
    { simpl. apply list_lookup_insert_eq. by eapply lookup_lt_Some. }
    assert (Hlen2 : length (lists h2) = S L)
      by (simpl; rewrite length_app; simpl; lia).
    assert (Hold : forall l0, l0 < L -> lists h2 !! l0 = lists h !! l0)
      by (intros l0 Hlt; simpl; by rewrite lookup_app_l).
    assert (Hks2 : forall k0, k0 ∈ ks ->
              exists l0 fns0, m !! k0 = Some (VList l0)
                              /\ lists h2 !! l0 = Some fns0).
    { intros k0 Hin. destruct (Hks k0) as (l0 & fns0 & Hk0 & Hl0); [by right|].
      exists l0, fns0. split; [done|]. by apply lookup_app_l_Some. }
    destruct (IH h2 md2 Hne Es2 Ed2 Hks2)
      as (h' & md' & Hrun & Es' & Ed' & Hlists & Hout & Hin).
    exists h', md'. rewrite Hstep.
    split; [done|]. split; [done|]. split; [done|]. split; [|split].
    + intros l0 Hlt. rewrite Hlists by lia. by apply Hold.
    + intros k0 [Hk0 Hnin]%not_elem_of_cons.
      rewrite (Hout _ Hnin). by apply lookup_insert_ne.
    + intros k0 l0 fns0 Hk0in Hk0 Hl0.
      destruct (decide (k0 ∈ ks)) as [Hyes|Hno].
      * destruct (Hin k0 l0 fns0 Hyes Hk0) as (l' & Hmd & Hge & Hl');
          [by apply lookup_app_l_Some|].
        exists l'. split; [done|]. split; [lia|done].
      * apply elem_of_cons in Hk0in as [->|?]; [|done].
        assert (l0 = l /\ fns0 = fns) as [-> ->].
        { rewrite Hk in Hk0. injection Hk0 as ->.
          rewrite Hl in Hl0. by injection Hl0 as ->. }
        exists L. split; [|split; [done|]].
        -- rewrite (Hout _ Hno). apply lookup_insert_eq.
        -- rewrite Hlists by lia. apply lookup_new_list.
Qed.

(** The branch of a [uselist] dispatcher: a new dict in which every slot
    of the original is a new list object with the same handlers in the
    same order, the original's dict and lists being left as they were;
    but the branch itself has [uselist = False]. *)
Lemma branch_multi_copies self h :
  uselist self = true ->
  multi_registry h self ->
  exists h' b m mb,
    branch self h = (h', Ok b)
    /\ uselist b = false
    /\ _registry b ≠ _registry self
    /\ dicts h !! _registry self = Some m
    /\ dicts h' !! _registry self = Some m
    /\ dicts h' !! _registry b = Some mb
    /\ (forall l, l < length (lists h) -> lists h' !! l = lists h !! l)
    /\ (forall k, m !! k = None -> mb !! k = None)
    /\ (forall k l fns,
          m !! k = Some (VList l) -> lists h !! l = Some fns ->
          exists l', mb !! k = Some (VList l')
                     /\ (length (lists h) ≤ l')%nat
                     /\ lists h' !! l' = Some fns).
Proof.
  intros U (m & E & Hwf).
  pose proof (lookup_lt_Some _ _ _ E) as Hlt.
  set (h1 := Heap (dicts h ++ [∅]) (lists h)).
  set (ks := (map_to_list m).*1).
  assert (Hks : forall k, k ∈ ks <-> is_Some (m !! k)).
  { intros k. unfold ks. rewrite list_elem_of_fmap. split.
    - intros ([k0 v] & -> & Hin%elem_of_map_to_list). by exists v.
    - intros [v Hv]. exists (k, v). split; [done|].
      by apply elem_of_map_to_list. }
  assert (Es1 : dicts h1 !! _registry self = Some m)
    by by apply lookup_app_l_Some.
  assert (Ed1 : dicts h1 !! length (dicts h) = Some (∅ : gmap key value))
    by (simpl; by rewrite lookup_app_r, Nat.sub_diag).
  destruct (copy_slots_spec (_registry self) (length (dicts h)) m ks h1 ∅)
    as (h' & mb & Hrun & Es' & Ed' & Hlists & Hout & Hin);
    [lia|done|done| |].
  { intros k [v Hv]%Hks. destruct (Hwf _ _ Hv) as (l & fns & -> & Hl). eauto. }
  exists h', {| _registry := length (dicts h); uselist := false |}, m, mb.
  split.
  { unfold branch, Dispatcher_init, bind, ret, new_dict; simpl.
    rewrite U. unfold dict_keys; simpl.
    rewrite (lookup_app_l_Some _ _ _ _ E). fold ks. fold h1. by rewrite Hrun. }
  split; [done|]. split; [simpl; lia|].
  split; [done|]. split; [done|]. split; [done|]. split; [done|]. split.
  - intros k Hk. rewrite Hout; [done|]. rewrite Hks, Hk. by intros [? ?].
  - intros k l fns Hk Hl. apply (Hin k l fns); [|done|done].
    apply Hks. by eexists.
Qed.

(** C2.  The code at a [uselist] dispatcher holding one handler under
    [("foo", "default")]: the branch copies the slot's list into a new
    list object, but is created with [uselist = False].  The original
    resolves "foo" to the aggregate over its list; the branch resolves it
    to the bare list, which is not callable, and refuses a further
    registration under the key. *)
Theorem branch_of_multi_loses_uselist :
  exists h' b,
    branch (Example.d0 true) (Example.heap_multi [1]) = (h', Ok b)
    /\ uselist b = false
    /\ lists h' = [[1]; [1]]
    /\ dispatch Example.mro Example.py_str (Example.d0 true) (OStr "foo")
         "default" h' = (h', Ok (VGo (VList 0)))
    /\ dispatch Example.mro Example.py_str b (OStr "foo") "default" h'
       = (h', Ok (VList 1))
    /\ call unit nat Example.fn_body h' (VList 1) tt 0
       = ([], 0, Some (TypeError "'list' object is not callable"))
    /\ dispatch_for b (TStr "foo") "default" 2 h' = (h', Raise AssertionError).
Proof.
  exists (Heap [Example.registry_multi; {[ (TStr "foo", "default") := VList 1 ]}]
            [[1]; [1]]),
    {| _registry := 1; uselist := false |}.
  repeat split; vm_compute; reflexivity.
Qed.

(** ** to_tuple *)

(** C10, as the code has it.  [to_tuple] returns the default for [None],
    the one-element tuple for a string, the tuple of the elements in
    iteration order for any other iterable whose iteration runs to its
    end, and the one-element tuple for anything else; it raises exactly
    when [x] is a non-string iterable whose iteration raises, and then it
    raises that exception. *)
Theorem to_tuple_cases (x default : ToTuple.pyval) :
  (x = ToTuple.PNone -> ToTuple.to_tuple x default = Ok default)
  /\ (ToTuple.is_string x = true ->
      ToTuple.to_tuple x default = Ok (ToTuple.PTuple [x]))
  /\ (forall items,
        ToTuple.is_string x = false -> ToTuple.is_iterable x = true ->
        ToTuple.iterate x = Ok (items, None) ->
        ToTuple.to_tuple x default = Ok (ToTuple.PTuple items))
  /\ (x ≠ ToTuple.PNone -> ToTuple.is_iterable x = false ->
      ToTuple.to_tuple x default = Ok (ToTuple.PTuple [x]))
  /\ (forall e,
        ToTuple.to_tuple x default = Raise e <->
        ToTuple.is_string x = false /\ ToTuple.is_iterable x = true
        /\ exists items, ToTuple.iterate x = Ok (items, Some e)).
Proof.
  split; [by intros ->|].
  split; [by destruct x|].
  split.
  { intros items Hs Hi Hit. by destruct x; simplify_eq/=. }
  split; [by destruct x|].
  intros e. split.
  - destruct x as [|s|n|items|items|items [e0|]|oid]; simpl;
      try (by inversion 1).
    unfold ToTuple.to_tuple, ToTuple.py_tuple; simpl.
    intros [= <-]. eauto.
  - intros (Hs & Hi & items & Hit).
    destruct x as [|s|n|its|its|its [e0|]|oid]; by simplify_eq/=.
Qed.

(** C10, as stated, at an iterator that yields one item and then raises:
    [to_tuple] raises. *)
Lemma to_tuple_raises_with_iterator :
  ToTuple.is_iterable
    (ToTuple.PIter [ToTuple.PInt 1] (Some (UserError 7))) = true
  /\ ToTuple.to_tuple
       (ToTuple.PIter [ToTuple.PInt 1] (Some (UserError 7))) ToTuple.PNone
     = Raise (UserError 7)
  /\ ~ (forall x default, exists v, ToTuple.to_tuple x default = Ok v).
Proof.
  split; [done|]. split; [done|].
  intros H.
  destruct (H (ToTuple.PIter [ToTuple.PInt 1] (Some (UserError 7)))
              ToTuple.PNone) as [v Hv].
  discriminate Hv.
Qed.

(** ** translate *)

Lemma filter_ext_elem {A} (P Q : A -> Prop) `{!forall x, Decision (P x)}
    `{!forall x, Decision (Q x)} (l : list A) :
  (forall x, x ∈ l -> P x <-> Q x) -> filter P l = filter Q l.
Proof.
  induction l as [|x l IH]; intros Hext; [done|].
  assert (IH' : filter P l = filter Q l)
    by (apply IH; intros y Hy; apply Hext; by right).
  destruct (decide (P x)) as [HP|HP].
  - rewrite !filter_cons_True, IH'; [done| |done]. apply Hext; [by left|done].
  - rewrite !filter_cons_False; [done| |done].
    intros HQ. apply HP. apply Hext; [by left|done].
Qed.

Section TranslateFacts.

Context {V : Type}.
Implicit Types (kw rkw : gmap string V) (ts : list (string * string)).

Lemma fill_positional_spec (pos : list string) rkw : forall (args racc : list V),
  Translate.fill_positional pos rkw args racc
  = match filter (fun arg => rkw !! arg = None) pos !! length args with
    | Some name => Raise (TypeError (Translate.missing_prefix ++ name)%string)
    | None =>
        let n := length (filter (fun arg => rkw !! arg = None) pos) in
        Ok (drop n args, racc ++ take n args)
    end.
Proof.
  induction pos as [|arg pos IH]; intros args racc; simpl.
  - by rewrite drop_0, take_0, app_nil_r.
  - destruct (rkw !! arg) as [v|] eqn:Harg.
    + rewrite filter_cons_False by (by rewrite Harg). apply IH.
    + rewrite filter_cons_True by done.
      destruct args as [|a args]; simpl; [done|].
      rewrite IH.
      destruct (filter (fun arg0 => rkw !! arg0 = None) pos !! length args);
        [done|].
      simpl. by rewrite <- app_assoc.
Qed.

Lemma rename_loop_none fn ts : forall kw rkw warned,
  (forall o, o ∈ ts.*1 -> kw !! o = None) ->
  Translate.rename_loop fn ts kw rkw warned = (kw, rkw, warned).
Proof.
  induction ts as [|[o n] ts IH]; intros kw rkw warned Hnone; simpl; [done|].
  rewrite (Hnone o) by (simpl; by left).
  apply IH. intros o' Hin. apply Hnone. simpl. by right.
Qed.

(** What is left in [kw]: the keywords that are not old names. *)
Lemma rename_loop_kw fn ts : forall kw rkw warned k,
  (Translate.rename_loop fn ts kw rkw warned).1.1 !! k
  = if decide (k ∈ ts.*1) then None else kw !! k.
Proof.
  induction ts as [|[o n] ts IH]; intros kw rkw warned k; simpl.
  - destruct (decide (k ∈ [])) as [Hin|]; [by inversion Hin|done].
  - destruct (kw !! o) as [v|] eqn:Ho; rewrite IH.
    + destruct (decide (k ∈ ts.*1)) as [Hin|Hnin].
      * by rewrite decide_True by (by right).
      * destruct (decide (k = o)) as [->|Hne].
        -- rewrite decide_True by (by left). apply lookup_delete_eq.
        -- rewrite decide_False by (by intros [?|?]%elem_of_cons).
           by apply lookup_delete_ne.
    + destruct (decide (k ∈ ts.*1)) as [Hin|Hnin].
      * by rewrite decide_True by (by right).
      * destruct (decide (k = o)) as [->|Hne].
        -- by rewrite decide_True by (by left).
        -- by rewrite decide_False by (by intros [?|?]%elem_of_cons).
Qed.

(** A name is not stored in [return_kw] when every old name translated
    to it is absent from [kw]. *)
Lemma rename_loop_rkw_absent fn ts k : forall kw rkw warned,
  (forall o, (o, k) ∈ ts -> kw !! o = None) ->
  (Translate.rename_loop fn ts kw rkw warned).1.2 !! k = rkw !! k.
Proof.
  induction ts as [|[o n] ts IH]; intros kw rkw warned Habs; simpl; [done|].
  destruct (kw !! o) as [v|] eqn:Ho.
  - rewrite IH.
    + apply lookup_insert_ne. intros ->.
      rewrite (Habs o) in Ho by (by left). done.
    + intros o' Hin. destruct (decide (o' = o)) as [->|Hne].
      * apply lookup_delete_eq.
      * rewrite lookup_delete_ne by done. apply Habs. by right.
  - apply IH. intros o' Hin. apply Habs. by right.
Qed.

(** The value given under an old name ends up under its new name. *)
Lemma rename_loop_rkw_set fn ts old new v : forall kw rkw warned,
  (old, new) ∈ ts ->
  (forall n, (old, n) ∈ ts -> n = new) ->
  (forall o, (o, new) ∈ ts -> o = old) ->
  kw !! old = Some v ->
  (Translate.rename_loop fn ts kw rkw warned).1.2 !! new = Some v
  /\ Translate.Renamed old new fn
       ∈ (Translate.rename_loop fn ts kw rkw warned).2.
Proof.
  induction ts as [|[o n] ts IH]; intros kw rkw warned Hin Hold Hnew Hv;
    [by inversion Hin|].
  simpl. destruct (decide (o = old)) as [->|Hne].
  - assert (n = new) as -> by (apply Hold; by left).
    rewrite Hv. split.
    + rewrite rename_loop_rkw_absent; [apply lookup_insert_eq|].
      intros o' Ho'. rewrite (Hnew o') by (by right). apply lookup_delete_eq.
    + clear IH Hin Hold Hnew Hv.
      assert (Hmono : forall ts' kw' rkw' w' x,
                 x ∈ w' -> x ∈ (Translate.rename_loop fn ts' kw' rkw' w').2).
      { induction ts' as [|[o' n'] ts' IH']; intros kw' rkw' w' x Hx; simpl;
          [done|].
        destruct (kw' !! o'); apply IH'; [|done].
        apply elem_of_app. by left. }
      apply Hmono, elem_of_app. right. by left.
  - apply elem_of_cons in Hin as [[= -> ->]|Hin]; [done|].
    assert (Hold' : forall n0, (old, n0) ∈ ts -> n0 = new)
      by (intros n0 ?; apply Hold; by right).
    assert (Hnew' : forall o0, (o0, new) ∈ ts -> o0 = old)
      by (intros o0 ?; apply Hnew; by right).
    destruct (kw !! o) as [vo|] eqn:Ho.
    + apply IH; try done. by rewrite lookup_delete_ne.
    + by apply IH.
Qed.

(** With no old name listed twice, one warning per old name given, in
    the order of the translations. *)
Lemma rename_loop_warnings fn ts : forall kw rkw warned,
  NoDup ts.*1 ->
  (Translate.rename_loop fn ts kw rkw warned).2
  = warned ++ ((fun p => Translate.Renamed p.1 p.2 fn)
                <$> filter (fun p => is_Some (kw !! p.1)) ts).
Proof.
  induction ts as [|[o n] ts IH]; intros kw rkw warned Hnd; simpl.
  - by rewrite app_nil_r.
  - apply NoDup_cons in Hnd as [Hnin Hnd].
    destruct (kw !! o) as [v|] eqn:Ho.
    + rewrite filter_cons_True by (simpl; rewrite Ho; eauto).
      rewrite IH by done. rewrite <- app_assoc. simpl. do 3 f_equal.
      apply filter_ext_elem. intros [o' n'] Hin. simpl.
      rewrite lookup_delete_ne; [done|].
      intros ->. apply Hnin. apply list_elem_of_fmap. by exists (o', n').
    + rewrite filter_cons_False by (simpl; rewrite Ho; by intros [? ?]).
      by apply IH.
Qed.

Lemma translate_without_rename_warnings fn ts kw :
  (forall o, o ∈ ts.*1 -> kw !! o = None) ->
  Translate.translate_warnings fn ts kw = [].
Proof.
  intros Hnone. unfold Translate.translate_warnings.
  by rewrite rename_loop_none.
Qed.

End TranslateFacts.

(** X1.  [translate] hands the positional arguments back as they were
    given, in their order, none dropped and none added, together with the
    translated keywords; it fails exactly when there are fewer positional
    arguments than names of [pos_only] that no keyword supplies, with the
    [TypeError] that names the first of those left without a value.  The
    warnings are issued in both cases. *)
Theorem translate_positional {V : Type}
    (fn_name : string) (spec : Translate.argspec V)
    (translations : list (string * string)) (args : list V)
    (kw : gmap string V) :
  Translate.translate fn_name spec translations args kw
  = (Translate.translate_warnings fn_name translations kw,
     match Translate.uncovered spec
             (Translate.translate_kw fn_name translations kw) !! length args with
     | Some name => Raise (TypeError (Translate.missing_prefix ++ name)%string)
     | None => Ok (args, Translate.translate_kw fn_name translations kw)
     end).
Proof.
  unfold Translate.translate, Translate.translate_kw,
    Translate.translate_warnings, Translate.uncovered.
  destruct (Translate.rename_loop fn_name translations kw ∅ [])
    as [[kw' rkw] warned]; simpl.
  rewrite fill_positional_spec.
  destruct (filter _ (Translate.pos_only spec) !! length args); [done|].
  simpl. by rewrite take_drop.
Qed.

(** X2.  A keyword whose name is not an old name of any translation is
    passed on with its value, also when a legacy keyword is translated to
    the same name: the value given under the new name wins. *)
Theorem translate_keeps_keyword {V : Type}
    (fn_name : string) (translations : list (string * string))
    (kw : gmap string V) (k : string) (v : V) :
  k ∉ translations.*1 ->
  kw !! k = Some v ->
  Translate.translate_kw fn_name translations kw !! k = Some v.
Proof.
  intros Hk Hv. unfold Translate.translate_kw.
  pose proof (rename_loop_kw fn_name translations kw ∅ [] k) as Hkw.
  destruct (Translate.rename_loop fn_name translations kw ∅ [])
    as [[kw' rkw] warned]; simpl in *.
  rewrite decide_False in Hkw by done.
  apply lookup_union_Some_l. by rewrite Hkw.
Qed.

Lemma translate_keeps_keyword_witness :
  Translate.translate_kw "m" TranslateExample.translations
    TranslateExample.kw_legacy !! "columns" = Some 30.
Proof.
  apply (translate_keeps_keyword "m" TranslateExample.translations
           TranslateExample.kw_legacy "columns" 30).
  - vm_compute. intros H. repeat (apply elem_of_cons in H as [H|H]; [done|]).
    by inversion H.
  - reflexivity.
Defined.

(** X3.  A keyword given under an old name, when the new name is not
    given as well, comes out under the new name with the same value, the
    old name is gone, and the renaming is warned about.  The old name is
    taken to stand in the translations for this new name only, and the
    other way round, and not to be a new name itself. *)
Theorem translate_renames_legacy_keyword {V : Type}
    (fn_name : string) (translations : list (string * string))
    (kw : gmap string V) (old new : string) (v : V) :
  (old, new) ∈ translations ->
  (forall n, (old, n) ∈ translations -> n = new) ->
  (forall o, (o, new) ∈ translations -> o = old) ->
  old ∉ translations.*2 ->
  kw !! old = Some v ->
  kw !! new = None ->
  Translate.translate_kw fn_name translations kw !! new = Some v
  /\ Translate.translate_kw fn_name translations kw !! old = None
  /\ Translate.Renamed old new fn_name
       ∈ Translate.translate_warnings fn_name translations kw.
Proof.
  intros Hin Hold Hnew Hnot Hv Hn.
  unfold Translate.translate_kw, Translate.translate_warnings.
  destruct (rename_loop_rkw_set fn_name translations old new v kw ∅ []
              Hin Hold Hnew Hv) as [Hset Hwarn].
  pose proof (rename_loop_kw fn_name translations kw ∅ [] new) as Hkwn.
  pose proof (rename_loop_kw fn_name translations kw ∅ [] old) as Hkwo.
  assert (Holdr : (Translate.rename_loop fn_name translations kw ∅ []).1.2
                    !! old = None).
  { rewrite rename_loop_rkw_absent; [apply lookup_empty|].
    intros o Ho. exfalso. apply Hnot. apply list_elem_of_fmap.
    by exists (o, old). }
  destruct (Translate.rename_loop fn_name translations kw ∅ [])
    as [[kw' rkw] warned]; simpl in *.
  split; [|split; [|done]].
  - rewrite lookup_union_r; [done|].
    rewrite Hkwn. destruct (decide (new ∈ translations.*1)); done.
  - apply lookup_union_None. split; [|done].
    rewrite Hkwo. rewrite decide_True; [done|].
    apply list_elem_of_fmap. by exists (old, new).
Qed.

Lemma translate_renames_legacy_keyword_witness :
  Translate.translate_kw "m" TranslateExample.translations
    TranslateExample.kw_legacy !! "constraint_name" = Some 10
  /\ Translate.translate_kw "m" TranslateExample.translations
       TranslateExample.kw_legacy !! "name" = None
  /\ Translate.Renamed "name" "constraint_name" "m"
       ∈ Translate.translate_warnings "m" TranslateExample.translations
           TranslateExample.kw_legacy.
Proof.
  apply (translate_renames_legacy_keyword "m" TranslateExample.translations
           TranslateExample.kw_legacy "name" "constraint_name" 10).
  - by left.
  - intros n H. repeat (apply elem_of_cons in H as [H|H]; [by simplify_eq|]).
    by inversion H.
  - intros o H. repeat (apply elem_of_cons in H as [H|H]; [by simplify_eq|]).
    by inversion H.
  - vm_compute. intros H. repeat (apply elem_of_cons in H as [H|H]; [done|]).
    by inversion H.
  - reflexivity.
  - reflexivity.
Defined.

(** X4.  When no keyword is given under an old name, [translate] changes
    nothing and warns about nothing: the keywords come back as they were,
    and so do the positional arguments unless one is missing. *)
Theorem translate_without_legacy_names {V : Type}
    (fn_name : string) (spec : Translate.argspec V)
    (translations : list (string * string)) (args : list V)
    (kw : gmap string V) :
  (forall o, o ∈ translations.*1 -> kw !! o = None) ->
  Translate.translate fn_name spec translations args kw
  = ([], match Translate.uncovered spec kw !! length args with
         | Some name => Raise (TypeError (Translate.missing_prefix ++ name)%string)
         | None => Ok (args, kw)
         end).
Proof.
  intros Hnone.
  assert (Hkw : Translate.translate_kw fn_name translations kw = kw).
  { unfold Translate.translate_kw. rewrite rename_loop_none by done.
    apply (right_id_L ∅ (∪)). }
  pose proof (translate_without_rename_warnings fn_name translations kw Hnone)
    as Hw.
  unfold Translate.translate, Translate.uncovered in *.
  unfold Translate.translate_kw in Hkw.
  unfold Translate.translate_warnings in Hw.
  destruct (Translate.rename_loop fn_name translations kw ∅ [])
    as [[kw' rkw] warned]; simpl in *. subst warned. rewrite Hkw.
  rewrite fill_positional_spec.
  destruct (filter _ (Translate.pos_only spec) !! length args); [done|].
  simpl. by rewrite take_drop.
Qed.

Lemma translate_without_legacy_names_witness :
  Translate.translate "m" TranslateExample.spec TranslateExample.translations
    [10; 20] TranslateExample.kw_plain
  = ([], Ok ([10; 20], TranslateExample.kw_plain)).
Proof.
  refine (translate_without_legacy_names "m" TranslateExample.spec
            TranslateExample.translations [10; 20] TranslateExample.kw_plain _).
  intros o H. repeat (apply elem_of_cons in H as [->|H]; [reflexivity|]).
  by inversion H.
Defined.

(** X5.  With no old name listed twice, the warnings issued are one per
    translation whose old name is among the keywords, in the order of the
    translations. *)
Theorem translate_warns_once_per_legacy_keyword {V : Type}
    (fn_name : string) (translations : list (string * string))
    (kw : gmap string V) :
  NoDup translations.*1 ->
  Translate.translate_warnings fn_name translations kw
  = (fun p => Translate.Renamed p.1 p.2 fn_name)
      <$> filter (fun p => is_Some (kw !! p.1)) translations.
Proof.
  intros Hnd. unfold Translate.translate_warnings.
  by rewrite rename_loop_warnings.
Qed.

Lemma translate_warns_once_per_legacy_keyword_witness :
  Translate.translate_warnings "m" TranslateExample.translations
    TranslateExample.kw_legacy
  = [Translate.Renamed "name" "constraint_name" "m"].
Proof.
  refine (translate_warns_once_per_legacy_keyword "m"
            TranslateExample.translations TranslateExample.kw_legacy _).
  vm_compute. repeat constructor; intros H;
    repeat (apply elem_of_cons in H as [H|H]; [done|]); by inversion H.
Defined.

(** ** format_as_comma *)

Section FormatFacts.

Variable py_repr : ToTuple.pyval -> string.
Variable type_name : ToTuple.pyval -> string.

Lemma as_strs_strings (ss : list string) : forall i,
  Messaging.as_strs type_name i (ToTuple.PStr <$> ss) = Ok ss.
Proof.
  induction ss as [|s ss IH]; intros i; simpl; [done|]. by rewrite IH.
Qed.

Lemma as_strs_first_other (pre : list string) item post : forall i,
  ToTuple.is_string item = false ->
  Messaging.as_strs type_name i ((ToTuple.PStr <$> pre) ++ item :: post)
  = Raise (TypeError ("sequence item " ++ pretty (i + length pre)
                      ++ ": expected str instance, "
                      ++ type_name item ++ " found")%string).
Proof.
  induction pre as [|s pre IH]; intros i Hitem; simpl.
  - rewrite Nat.add_0_r. by destruct item.
  - rewrite IH by done. by rewrite Nat.add_succ_r.
Qed.

Lemma as_strs_ok_inv (items : list ToTuple.pyval) : forall i ss,
  Messaging.as_strs type_name i items = Ok ss -> items = ToTuple.PStr <$> ss.
Proof.
  induction items as [|item items IH]; intros i ss; simpl.
  - by intros [= <-].
  - destruct item as [|s| | | | |]; try (by inversion 1).
    destruct (Messaging.as_strs type_name (S i) items) as [ss'|e] eqn:E;
      [|by inversion 1].
    intros [= <-]. simpl. by rewrite (IH _ _ E).
Qed.

End FormatFacts.



(** X7.  [format_as_comma] returns exactly for [None], for a string, and
    for an iterable that can be iterated to its end and yields strings
    only; what it returns for such an iterable is its items joined by
    ", " in iteration order. *)
Theorem format_as_comma_returns
    (py_repr type_name : ToTuple.pyval -> string) (x : ToTuple.pyval) :
  ((exists v, Messaging.format_as_comma py_repr type_name x = Ok v) <->
   x = ToTuple.PNone
   \/ exists ss, ToTuple.iterate x = Ok (ToTuple.PStr <$> ss, None))
  /\ (forall ss, ToTuple.is_string x = false ->
        ToTuple.iterate x = Ok (ToTuple.PStr <$> ss, None) ->
        Messaging.format_as_comma py_repr type_name x
        = Ok (ToTuple.PStr (Messaging.join_strs ", " ss))).
Proof.
  assert (Hjoin : forall ss, ToTuple.is_string x = false ->
            ToTuple.iterate x = Ok (ToTuple.PStr <$> ss, None) ->
            Messaging.format_as_comma py_repr type_name x
            = Ok (ToTuple.PStr (Messaging.join_strs ", " ss))).
  { intros ss Hs Hit.
    destruct x as [|s|n|items|items|items [e|]|oid]; simplify_eq/=;
      unfold Messaging.format_as_comma, Messaging.str_join; simpl;
      by rewrite as_strs_strings. }
  split; [|done]. split.
  - intros [v Hv].
    destruct x as [|s|n|items|items|items [e|]|oid]; simpl in *;
      try (by left); try done; right.
    + exists ((fun c => String c EmptyString) <$> String.list_ascii_of_string s).
      f_equal. f_equal. clear Hv. induction s as [|c s IH]; simpl; [done|].
      by rewrite IH.
    + unfold Messaging.format_as_comma, Messaging.str_join in Hv; simpl in Hv.
      destruct (Messaging.as_strs type_name 0 items) as [ss|e] eqn:E;
        [|done].
      exists ss. by rewrite (as_strs_ok_inv _ _ _ _ E).
    + unfold Messaging.format_as_comma, Messaging.str_join in Hv; simpl in Hv.
      destruct (Messaging.as_strs type_name 0 items) as [ss|e] eqn:E;
        [|done].
      exists ss. by rewrite (as_strs_ok_inv _ _ _ _ E).
    + unfold Messaging.format_as_comma, Messaging.str_join in Hv; simpl in Hv.
      destruct (Messaging.as_strs type_name 0 items) as [ss|e] eqn:E;
        [|done].
      exists ss. by rewrite (as_strs_ok_inv _ _ _ _ E).
  - intros [->|[ss Hit]]; [by eexists|].
    destruct (ToTuple.is_string x) eqn:Hs.
    + destruct x; try done. by eexists.
    + eexists. by apply Hjoin.
Qed.

(** X8.  For an iterable, not a string, whose first item that is not a
    string comes after the strings [pre], [format_as_comma] raises the
    [TypeError] of [join], which gives the position of that item and the
    name of its type. *)
Theorem format_as_comma_rejects_item
    (py_repr type_name : ToTuple.pyval -> string)
    (x : ToTuple.pyval) (pre : list string) (item : ToTuple.pyval)
    (post : list ToTuple.pyval) :
  ToTuple.is_string x = false ->
  ToTuple.iterate x = Ok ((ToTuple.PStr <$> pre) ++ item :: post, None) ->
  ToTuple.is_string item = false ->
  Messaging.format_as_comma py_repr type_name x
  = Raise (TypeError ("sequence item " ++ pretty (length pre)
                      ++ ": expected str instance, "
                      ++ type_name item ++ " found")%string).
Proof.
  intros Hs Hit Hitem.
  destruct x as [|s|n|items|items|items [e|]|oid]; simplify_eq/=;
    unfold Messaging.format_as_comma, Messaging.str_join; simpl;
    by rewrite (as_strs_first_other _ _ _ _ 0 Hitem).
Qed.

Lemma format_as_comma_rejects_item_witness :
  Messaging.format_as_comma ConsoleExample.py_repr ConsoleExample.type_name
    (ToTuple.PList [ToTuple.PStr "a1"; ToTuple.PNone])
  = Raise (TypeError "sequence item 1: expected str instance, NoneType found").
Proof.
  exact (format_as_comma_rejects_item ConsoleExample.py_repr
           ConsoleExample.type_name
           (ToTuple.PList [ToTuple.PStr "a1"; ToTuple.PNone])
           ["a1"] ToTuple.PNone [] eq_refl eq_refl eq_refl).
Defined.

(** ** Console output *)

Section ConsoleFacts.

Context {S : Type}.
Variable stream_encoding : S -> Messaging.encoding_attr.
Variable stream_write : string -> S -> S * option Messaging.exc.
Variable stream_flush : S -> S * option Messaging.exc.
Variable encode decode : string -> string -> Messaging.outcome string.
Variable TERMWIDTH : option nat.
Variable wrap : string -> nat -> list string.

Local Abbreviation recode := (Messaging.recode encode decode).
Local Abbreviation write_loop :=
  (Messaging.write_loop S stream_write encode decode).
Local Abbreviation write_outstream :=
  (Messaging.write_outstream S stream_encoding stream_write encode decode).
Local Abbreviation written := (Messaging.written S stream_write encode decode).
Local Abbreviation write_lines :=
  (Messaging.write_lines S stream_encoding stream_write encode decode).
Local Abbreviation msg :=
  (Messaging.msg S stream_encoding stream_write stream_flush encode decode
     TERMWIDTH wrap).

Lemma write_loop_written enc ts st ss st' :
  written enc ts st ss st' ->
  write_loop enc ts st = (Messaging.Wrote <$> ss, st', Messaging.Done tt).
Proof.
  induction 1 as [st|t ts s ss st st1 st2 Hrec Hw _ IH]; simpl; [done|].
  by rewrite Hrec, Hw, IH.
Qed.

Lemma write_loop_stops enc pre t post st ss st1 s st2 e :
  written enc pre st ss st1 ->
  recode enc t = Messaging.Done s ->
  stream_write s st1 = (st2, Some e) ->
  write_loop enc (pre ++ t :: post) st
  = (Messaging.Wrote <$> (ss ++ [s]), st2,
     match e with
     | Messaging.IOError => Messaging.Done tt
     | _ => Messaging.Failed e
     end).
Proof.
  intros Hpre Hrec Hw.
  induction Hpre as [st|t0 ts s0 ss st st' st'' Hrec0 Hw0 _ IH]; simpl.
  - rewrite Hrec, Hw. by destruct e.
  - by rewrite Hrec0, Hw0, IH.
Qed.

(** X9.  [write_outstream] writes the texts in order, each encoded and
    decoded for the encoding of the stream, and stops at the first write
    that raises: the texts after it are not written; an [IOError] is
    swallowed and the function returns, any other exception is passed
    on. *)
Theorem write_outstream_stops_at_failed_write
    (pre : list Messaging.text) (t : Messaging.text)
    (post : list Messaging.text) (st st1 st2 : S) (ss : list string)
    (s : string) (e : Messaging.exc) :
  written (Messaging.encoding_or_ascii S stream_encoding st) pre st ss st1 ->
  recode (Messaging.encoding_or_ascii S stream_encoding st) t
  = Messaging.Done s ->
  stream_write s st1 = (st2, Some e) ->
  write_outstream (pre ++ t :: post) st
  = (Messaging.Wrote <$> (ss ++ [s]), st2,
     match e with
     | Messaging.IOError => Messaging.Done tt
     | _ => Messaging.Failed e
     end).
Proof. intros Hpre Hrec Hw. by eapply write_loop_stops. Qed.

(** X10.  On a terminal, a message that [wrap] breaks into no line at
    all makes [msg] raise [IndexError] at [lines[-1]], with nothing
    written and nothing flushed. *)
Theorem msg_without_lines_raises
    (m : string) (newline flush : bool) (width : nat) (st : S) :
  TERMWIDTH = Some width ->
  wrap m width = [] ->
  msg m newline flush st = ([], st, Messaging.Failed Messaging.IndexError).
Proof.
  intros HT Hw. unfold Messaging.msg, Messaging.obind. by rewrite HT, Hw.
Qed.

(** Codecs that turn every string [s] into [r s] whatever the encoding
    of the stream. *)
Section Codec.

Variable r : string -> string.
Hypothesis recode_ok : forall st s,
  recode (Messaging.encoding_or_ascii S stream_encoding st) (Messaging.Str s)
  = Messaging.Done (r s).

Local Abbreviation after_writes := (Messaging.after_writes S stream_write).
Local Abbreviation line_events := (Messaging.line_events r).

(** A stream whose [write] and [flush] never raise. *)
Section GoodStream.

Hypothesis write_ok : forall s st, (stream_write s st).2 = None.
Hypothesis flush_ok : forall st, (stream_flush st).2 = None.

Lemma write_loop_good enc (xs : list string) : forall st,
  (forall s, recode enc (Messaging.Str s) = Messaging.Done (r s)) ->
  write_loop enc (Messaging.Str <$> xs) st
  = (Messaging.Wrote <$> (r <$> xs), after_writes (r <$> xs) st,
     Messaging.Done tt).
Proof.
  induction xs as [|x xs IH]; intros st Hrec; simpl; [done|].
  pose proof (Hrec x) as Hx. simpl in Hx. rewrite Hx.
  pose proof (write_ok (r x) st) as Hw.
  destruct (stream_write (r x) st) as [st' o] eqn:E; simpl in *; subst o.
  by rewrite IH.
Qed.

Lemma write_outstream_good (xs : list string) st :
  write_outstream (Messaging.Str <$> xs) st
  = (Messaging.Wrote <$> (r <$> xs), after_writes (r <$> xs) st,
     Messaging.Done tt).
Proof.
  unfold Messaging.write_outstream. apply write_loop_good.
  intros s. apply recode_ok.
Qed.

Lemma write_lines_good (lines : list string) : forall st,
  exists st', write_lines lines st = (line_events lines, st', Messaging.Done tt).
Proof.
  induction lines as [|line lines IH]; intros st; simpl.
  - by eexists.
  - unfold Messaging.obind.
    rewrite (write_outstream_good ["  "; line; Messaging.newline_str]).
    destruct (IH (after_writes (r <$> ["  "; line; Messaging.newline_str]) st))
      as [st' ->].
    by eexists.
Qed.

Lemma flush_good (flush : bool) st :
  exists st',
    (if flush
     then Messaging.flush_stdout S stream_flush
     else Messaging.oret S tt) st
    = (if flush then [Messaging.Flushed] else [], st', Messaging.Done tt).
Proof.
  destruct flush; [|by eexists]. unfold Messaging.flush_stdout.
  pose proof (flush_ok st) as Hf.
  destruct (stream_flush st) as [st' o]; simpl in *; subst o. by eexists.
Qed.

(** X11.  On a terminal, with a stream that takes every write, [msg]
    writes each line of the wrapped message after two spaces; every line
    but the last is followed by a newline, the last one only if
    [newline] is set; the stream is flushed afterwards if [flush] is
    set. *)
Theorem msg_on_terminal
    (m : string) (newline flush : bool) (width : nat)
    (init : list string) (l : string) (st : S) :
  TERMWIDTH = Some width ->
  wrap m width = init ++ [l] ->
  exists st',
    msg m newline flush st
    = (line_events init
       ++ [Messaging.Wrote (r "  "); Messaging.Wrote (r l);
           Messaging.Wrote (r (if newline then Messaging.newline_str else ""))]
       ++ (if flush then [Messaging.Flushed] else []),
       st', Messaging.Done tt).
Proof.
  intros HT Hw. unfold Messaging.msg. rewrite HT, Hw.
  rewrite last_snoc, length_app, Nat.add_sub, take_app_length. simpl.
  unfold Messaging.obind at 1.
  assert (Hinit : exists st1,
             Messaging.obind S
               (if bool_decide (1 < length init + 1)
                then write_lines init else Messaging.oret S tt)
               (fun _ =>
                  write_outstream
                    [Messaging.Str "  "; Messaging.Str l;
                     Messaging.Str (if newline then Messaging.newline_str else "")])
               st
             = (line_events init
                ++ [Messaging.Wrote (r "  "); Messaging.Wrote (r l);
                    Messaging.Wrote
                      (r (if newline then Messaging.newline_str else ""))],
                st1, Messaging.Done tt)).
  { unfold Messaging.obind.
    assert (Hl : exists st0,
               (if bool_decide (1 < length init + 1)
                then write_lines init else Messaging.oret S tt) st
               = (line_events init, st0, Messaging.Done tt)).
    { case_bool_decide as Hlen; [apply write_lines_good|].
      destruct init; [by eexists|simpl in Hlen; lia]. }
    destruct Hl as [st0 ->].
    rewrite (write_outstream_good
               ["  "; l; if newline then Messaging.newline_str else ""]).
    by eexists. }
  destruct Hinit as [st1 ->].
  destruct (flush_good flush st1) as [st2 ->].
  exists st2. by rewrite <- app_assoc.
Qed.

(** X12.  Without a terminal, with a stream that takes every write,
    [msg] writes the message as it is, then a newline if [newline] is
    set, and flushes the stream if [flush] is set. *)
Theorem msg_without_terminal
    (m : string) (newline flush : bool) (st : S) :
  TERMWIDTH = None ->
  exists st',
    msg m newline flush st
    = ([Messaging.Wrote (r m)]
       ++ (if newline then [Messaging.Wrote (r Messaging.newline_str)] else [])
       ++ (if flush then [Messaging.Flushed] else []),
       st', Messaging.Done tt).
Proof.
  intros HT. unfold Messaging.msg. rewrite HT.
  unfold Messaging.obind at 1. unfold Messaging.obind at 1.
  rewrite (write_outstream_good [m]).
  destruct newline.
  - rewrite (write_outstream_good [Messaging.newline_str]).
    destruct (flush_good flush
                (after_writes (r <$> [Messaging.newline_str])
                   (after_writes (r <$> [m]) st))) as [st2 ->].
    by exists st2.
  - unfold Messaging.oret at 1.
    destruct (flush_good flush (after_writes (r <$> [m]) st)) as [st2 ->].
    by exists st2.
Qed.

End GoodStream.

(** A stream whose [write] raises nothing but [IOError]. *)
Section PipeStream.

Hypothesis write_io : forall s st,
  (stream_write s st).2 = None \/ (stream_write s st).2 = Some Messaging.IOError.

Lemma write_outstream_single (x : string) st :
  write_outstream [Messaging.Str x] st
  = ([Messaging.Wrote (r x)], (stream_write (r x) st).1, Messaging.Done tt).
Proof.
  unfold Messaging.write_outstream. simpl.
  pose proof (recode_ok st x) as Hx. simpl in Hx. rewrite Hx.
  destruct (write_io (r x) st) as [Hw|Hw];
    destruct (stream_write (r x) st) as [st' o]; simpl in *; by subst o.
Qed.

Context {V : Type}.
Variable truthy : V -> bool.

Local Abbreviation status :=
  (Messaging.status S stream_encoding stream_write stream_flush encode decode
     TERMWIDTH wrap V truthy).

(** X13.  Once the status message is out: if [fn] returns, [status]
    writes "  done" and a newline and returns what [fn] returned; if [fn]
    raises, [status] writes "  FAILED" and a newline and raises the same
    exception.  [fn] is called without the keyword [newline], which only
    decides whether the status message ends with a newline. *)
Theorem status_reports_outcome
    (statmsg : string) (fn : list V -> gmap string V -> Messaging.Out S V)
    (arg : list V) (kw : gmap string V)
    (st st1 st2 : S) (tr0 tr1 : list Messaging.event)
    (result : Messaging.outcome V) :
  msg (statmsg ++ " ...")
    (match kw !! "newline" with Some v => truthy v | None => false end)
    true st
  = (tr0, st1, Messaging.Done tt) ->
  fn arg (delete "newline" kw) st1 = (tr1, st2, result) ->
  let word := match result with
              | Messaging.Done _ => "  done"
              | Messaging.Failed _ => "  FAILED"
              end in
  status statmsg fn arg kw st
  = (tr0 ++ tr1 ++ [Messaging.Wrote (r (word ++ Messaging.newline_str))],
     (stream_write (r (word ++ Messaging.newline_str)) st2).1,
     result).
Proof.
  intros Hmsg Hfn word. unfold Messaging.status.
  unfold Messaging.obind at 1. rewrite Hmsg.
  unfold Messaging.on_exception, Messaging.obind. rewrite Hfn.
  destruct result as [v|e]; subst word; rewrite write_outstream_single; simpl;
    by rewrite ?app_nil_r.
Qed.

End PipeStream.

End Codec.

End ConsoleFacts.

(** A pipe closed by its reader after one write: the second text is the
    last one handed to [write], the third is never written. *)
Lemma write_outstream_stops_at_failed_write_witness :
  Messaging.write_outstream (nat * list string) ConsoleExample.pipe_encoding
    ConsoleExample.pipe_write ConsoleExample.encode ConsoleExample.decode
    [Messaging.Str "a"; Messaging.Str "b"; Messaging.Str "c"] (1, [])
  = ([Messaging.Wrote "a"; Messaging.Wrote "b"], (0, ["a"]), Messaging.Done tt).
Proof.
  refine (write_outstream_stops_at_failed_write ConsoleExample.pipe_encoding
            ConsoleExample.pipe_write ConsoleExample.encode
            ConsoleExample.decode [Messaging.Str "a"] (Messaging.Str "b")
            [Messaging.Str "c"] (1, []) (0, ["a"]) (0, ["a"]) ["a"] "b"
            Messaging.IOError _ eq_refl eq_refl).
  eapply Messaging.written_cons; [reflexivity|reflexivity|].
  apply Messaging.written_nil.
Defined.

Lemma msg_without_lines_raises_witness :
  Messaging.msg (list string) ConsoleExample.buffer_encoding
    ConsoleExample.buffer_write ConsoleExample.buffer_flush
    ConsoleExample.encode ConsoleExample.decode (Some 80) ConsoleExample.wrap
    "" true true []
  = ([], [], Messaging.Failed Messaging.IndexError).
Proof.
  exact (msg_without_lines_raises ConsoleExample.buffer_encoding
           ConsoleExample.buffer_write ConsoleExample.buffer_flush
           ConsoleExample.encode ConsoleExample.decode (Some 80)
           ConsoleExample.wrap "" true true 80 [] eq_refl eq_refl).
Defined.

Lemma msg_on_terminal_witness :
  exists st',
    Messaging.msg (list string) ConsoleExample.buffer_encoding
      ConsoleExample.buffer_write ConsoleExample.buffer_flush
      ConsoleExample.encode ConsoleExample.decode (Some 80)
      ConsoleExample.wrap "hello world" true true []
    = (Messaging.line_events (fun s => s) ["hello"]
       ++ [Messaging.Wrote "  "; Messaging.Wrote "world";
           Messaging.Wrote Messaging.newline_str]
       ++ [Messaging.Flushed],
       st', Messaging.Done tt).
Proof.
  refine (msg_on_terminal ConsoleExample.buffer_encoding
            ConsoleExample.buffer_write ConsoleExample.buffer_flush
            ConsoleExample.encode ConsoleExample.decode (Some 80)
            ConsoleExample.wrap (fun s => s) _ _ _
            "hello world" true true 80 ["hello"] "world" [] eq_refl eq_refl);
    intros; reflexivity.
Defined.

Lemma msg_without_terminal_witness :
  exists st',
    Messaging.msg (list string) ConsoleExample.buffer_encoding
      ConsoleExample.buffer_write ConsoleExample.buffer_flush
      ConsoleExample.encode ConsoleExample.decode None
      ConsoleExample.wrap "hello world" true false []
    = ([Messaging.Wrote "hello world"]
       ++ [Messaging.Wrote Messaging.newline_str] ++ [],
       st', Messaging.Done tt).
Proof.
  refine (msg_without_terminal ConsoleExample.buffer_encoding
            ConsoleExample.buffer_write ConsoleExample.buffer_flush
            ConsoleExample.encode ConsoleExample.decode None
            ConsoleExample.wrap (fun s => s) _ _ _
            "hello world" true false [] eq_refl);
    intros; reflexivity.
Defined.

(** [status("run", fn)] with a handler that raises, without a
    terminal. *)
Lemma status_reports_outcome_witness :
  Messaging.status (list string) ConsoleExample.buffer_encoding
    ConsoleExample.buffer_write ConsoleExample.buffer_flush
    ConsoleExample.encode ConsoleExample.decode None ConsoleExample.wrap
    nat ConsoleExample.truthy "run" ConsoleExample.fn_raises [] ∅ []
  = ([Messaging.Wrote "run ..."; Messaging.Flushed]
     ++ [] ++ [Messaging.Wrote ("  FAILED" ++ Messaging.newline_str)],
     ["run ..."; ("  FAILED" ++ Messaging.newline_str)%string],
     Messaging.Failed (Messaging.OtherError 7)).
Proof.
  refine (status_reports_outcome ConsoleExample.buffer_encoding
            ConsoleExample.buffer_write ConsoleExample.buffer_flush
            ConsoleExample.encode ConsoleExample.decode None
            ConsoleExample.wrap (fun s => s) _ _ ConsoleExample.truthy
            "run" ConsoleExample.fn_raises [] ∅ [] ["run ..."] ["run ..."]
            [Messaging.Wrote "run ..."; Messaging.Flushed] []
            (Messaging.Failed (Messaging.OtherError 7)) eq_refl eq_refl).
  - intros; reflexivity.
  - intros; left; reflexivity.
Defined.

(** ** More on the dispatcher *)

(** X14.  The aggregate of a [uselist] dispatcher holds the list of its
    slot, not a copy of it: a handler registered under the key after
    [dispatch] returned the aggregate is called by that aggregate too,
    after the handlers that were there. *)
Theorem aggregate_sees_later_registration
    (mro : classid -> list classid) (py_str : pyobj -> string)
    {args W : Type} (fn_body : fnid -> args -> W -> W * option exn)
    (self : Dispatcher) (h : heap) (m : gmap key value)
    (obj : pyobj) (t : target) (rest : list target) (q : string)
    (l : loc) (xs : list fnid) (fn : fnid) :
  uselist self = true ->
  dicts h !! _registry self = Some m ->
  m !! (t, q) = Some (VList l) ->
  lists h !! l = Some xs ->
  targets_of mro obj = t :: rest ->
  dispatch mro py_str self obj q h = (h, Ok (VGo (VList l)))
  /\ exists h',
       dispatch_for self t q fn h = (h', Ok fn)
       /\ forall (a : args) (w : W),
            call args W fn_body h' (VGo (VList l)) a w
            = go_loop args W fn_body (xs ++ [fn]) a w.
Proof.
  intros U E Hk Hl Hts. split.
  - unfold dispatch. rewrite Hts.
    replace (VGo (VList l)) with (_fn_or_list self (VList l))
      by (unfold _fn_or_list; by rewrite U).
    destruct (decide (q = default_qualifier)) as [->|Hne].
    + eapply dispatch_loop_default; [done|by left|done].
    + by eapply dispatch_loop_exact.
  - eexists. split; [by eapply dispatch_for_multi_present|].
    intros a w. unfold call. simpl.
    rewrite lookup_app_l
      by (rewrite length_insert; by eapply lookup_lt_Some).
    rewrite list_lookup_insert_eq by (by eapply lookup_lt_Some). done.
Qed.

Lemma aggregate_sees_later_registration_witness :
  dispatch Example.mro Example.py_str (Example.d0 true) (OStr "foo") "default"
    (Example.heap_multi [1])
  = (Example.heap_multi [1], Ok (VGo (VList 0)))
  /\ exists h',
       dispatch_for (Example.d0 true) (TStr "foo") "default" 2
         (Example.heap_multi [1]) = (h', Ok 2)
       /\ forall (a : unit) (w : nat),
            call unit nat Example.fn_body h' (VGo (VList 0)) a w
            = go_loop unit nat Example.fn_body ([1] ++ [2]) a w.
Proof.
  exact (aggregate_sees_later_registration Example.mro Example.py_str
           Example.fn_body (Example.d0 true) (Example.heap_multi [1])
           Example.registry_multi (OStr "foo") (TStr "foo") [] "default"
           0 [1] 2 eq_refl eq_refl eq_refl eq_refl eq_refl).
Defined.

(** X15.  After [branch] of a [uselist] dispatcher, a registration made
    through the original reaches neither the registry of the branch nor
    any of the lists its slots refer to. *)
Theorem branch_multi_isolated
    (self b : Dispatcher) (h h' h'' : heap) (mb : gmap key value)
    (t : target) (q : string) (fn : fnid) (r : res fnid) :
  uselist self = true ->
  multi_registry h self ->
  branch self h = (h', Ok b) ->
  dicts h' !! _registry b = Some mb ->
  dispatch_for self t q fn h' = (h'', r) ->
  r = Ok fn
  /\ dicts h'' !! _registry b = Some mb
  /\ forall k l', mb !! k = Some (VList l') -> lists h'' !! l' = lists h' !! l'.
Proof.
  intros U Hwf Hbr Hmb Hreg.
  destruct (branch_multi_copies self h U Hwf)
    as (h1 & b1 & m & mb1 & Hbr1 & Ub & Hne & E & E' & Eb & Hold & Hnone & Hcopy).
  rewrite Hbr in Hbr1. injection Hbr1 as <- <-.
  rewrite Hmb in Eb. injection Eb as <-.
  destruct Hwf as (m0 & E0 & Hwf). rewrite E in E0. injection E0 as <-.
  assert (Hmbl : forall k l', mb !! k = Some (VList l') ->
             (length (lists h) ≤ l')%nat /\ l' < length (lists h')).
  { intros k l' Hk. destruct (m !! k) as [v|] eqn:Hmk.
    - destruct (Hwf _ _ Hmk) as (l & fns & -> & Hl).
      destruct (Hcopy _ _ _ Hmk Hl) as (l2 & Hk2 & Hge & Hl2).
      rewrite Hk in Hk2. injection Hk2 as ->.
      split; [done|]. by eapply lookup_lt_Some.
    - by rewrite (Hnone _ Hmk) in Hk. }
  destruct (m !! (t, q)) as [v|] eqn:Hk.
  - destruct (Hwf _ _ Hk) as (l & xs & -> & Hl).
    pose proof (lookup_lt_Some _ _ _ Hl) as Hlt.
    assert (Hl' : lists h' !! l = Some xs) by (by rewrite Hold).
    rewrite (dispatch_for_multi_present _ _ _ fn _ _ _ _ U E' Hk Hl') in Hreg.
    injection Hreg as <- <-. split; [done|]. split; [done|].
    intros k l' Hkl'. simpl.
    destruct (Hmbl _ _ Hkl') as [Hge Hin].
    rewrite lookup_app_l by (by rewrite length_insert).
    apply list_lookup_insert_ne. lia.
  - rewrite (dispatch_for_multi_fresh _ _ _ fn _ _ U E' Hk) in Hreg.
    injection Hreg as <- <-. split; [done|]. split.
    + simpl. by rewrite list_lookup_insert_ne.
    + intros k l' Hkl'. simpl.
      destruct (Hmbl _ _ Hkl') as [Hge Hin].
      by rewrite lookup_app_l.
Qed.

Lemma example_multi_registry fns :
  multi_registry (Example.heap_multi fns) (Example.d0 true).
Proof.
  exists Example.registry_multi. split; [reflexivity|].
  unfold Example.registry_multi.
  intros k v [_ <-]%lookup_singleton_Some. by exists 0, fns.
Qed.

Lemma branch_multi_isolated_witness :
  Ok 2 = Ok 2
  /\ dicts (Heap [Example.registry_multi; {[ (TStr "foo", "default") := VList 1 ]}]
              [[1; 2]; [1]; []]) !! 1
     = Some {[ (TStr "foo", "default") := VList 1 ]}
  /\ forall k l',
       ({[ (TStr "foo", "default") := VList 1 ]} : gmap key value) !! k
       = Some (VList l') ->
       lists (Heap [Example.registry_multi;
                    {[ (TStr "foo", "default") := VList 1 ]}]
                [[1; 2]; [1]; []]) !! l'
       = lists (Heap [Example.registry_multi;
                      {[ (TStr "foo", "default") := VList 1 ]}]
                  [[1]; [1]]) !! l'.
Proof.
  exact (branch_multi_isolated (Example.d0 true)
           {| _registry := 1; uselist := false |}
           (Example.heap_multi [1])
           (Heap [Example.registry_multi;
                  {[ (TStr "foo", "default") := VList 1 ]}] [[1]; [1]])
           (Heap [Example.registry_multi;
                  {[ (TStr "foo", "default") := VList 1 ]}] [[1; 2]; [1]; []])
           {[ (TStr "foo", "default") := VList 1 ]}
           (TStr "foo") "default" 2 (Ok 2)
           eq_refl (example_multi_registry [1]) eq_refl eq_refl eq_refl).
Defined.

Lemma branch_single_independent_witness :
  exists h' b,
    branch (Example.d0 false) Example.heap_foo = (h', Ok b)
    /\ (forall obj q, dispatch Example.mro Example.py_str b obj q h'
                      = dispatch Example.mro Example.py_str (Example.d0 false)
                          obj q h')
    /\ (forall t q fn h'' r,
          dispatch_for b t q fn h' = (h'', r) ->
          dicts h'' !! _registry (Example.d0 false) = Some Example.registry_foo)
    /\ (forall t q fn h'' r,
          dispatch_for (Example.d0 false) t q fn h' = (h'', r) ->
          dicts h'' !! _registry b = Some Example.registry_foo).
Proof.
  exact (branch_single_independent Example.mro Example.py_str
           (Example.d0 false) Example.heap_foo Example.registry_foo
           eq_refl eq_refl).
Defined.

(** X17.  [branch] of a [uselist] dispatcher copies deeply: the branch
    has a dict of its own in which every key of the original refers to a
    list object that did not exist before and holds the handlers of the
    original's list in the same order; the dict and the lists of the
    original are left as they were.  The branch itself is made with
    [uselist = False]. *)
Theorem branch_multi_deep_copy (self : Dispatcher) (h : heap) :
  uselist self = true ->
  multi_registry h self ->
  exists h' b m mb,
    branch self h = (h', Ok b)
    /\ uselist b = false
    /\ _registry b ≠ _registry self
    /\ dicts h !! _registry self = Some m
    /\ dicts h' !! _registry self = Some m
    /\ dicts h' !! _registry b = Some mb
    /\ (forall l, l < length (lists h) -> lists h' !! l = lists h !! l)
    /\ (forall k, m !! k = None -> mb !! k = None)
    /\ (forall k l fns,
          m !! k = Some (VList l) -> lists h !! l = Some fns ->
          exists l', mb !! k = Some (VList l')
                     /\ (length (lists h) ≤ l')%nat
                     /\ lists h' !! l' = Some fns).
Proof. apply branch_multi_copies. Qed.

Lemma branch_multi_deep_copy_witness :
  exists h' b m mb,
    branch (Example.d0 true) (Example.heap_multi [1; 2]) = (h', Ok b)
    /\ uselist b = false
    /\ _registry b ≠ _registry (Example.d0 true)
    /\ dicts (Example.heap_multi [1; 2]) !! _registry (Example.d0 true) = Some m
    /\ dicts h' !! _registry (Example.d0 true) = Some m
    /\ dicts h' !! _registry b = Some mb
    /\ (forall l, l < length (lists (Example.heap_multi [1; 2])) ->
          lists h' !! l = lists (Example.heap_multi [1; 2]) !! l)
    /\ (forall k, m !! k = None -> mb !! k = None)
    /\ (forall k l fns,
          m !! k = Some (VList l) ->
          lists (Example.heap_multi [1; 2]) !! l = Some fns ->
          exists l', mb !! k = Some (VList l')
                     /\ (length (lists (Example.heap_multi [1; 2])) ≤ l')%nat
                     /\ lists h' !! l' = Some fns).
Proof.
  exact (branch_multi_deep_copy (Example.d0 true) (Example.heap_multi [1; 2])
           eq_refl (example_multi_registry [1; 2])).
Defined.

Lemma multi_registry_dispatch_for_witness :
  exists h',
    dispatch_for (Example.d0 true) (TStr "foo") "default" 2
      (Example.heap_multi [1]) = (h', Ok 2)
    /\ multi_registry h' (Example.d0 true).
Proof.
  exact (multi_registry_dispatch_for (Example.d0 true) (TStr "foo") "default"
           2 (Example.heap_multi [1]) eq_refl (example_multi_registry [1])).
Defined.

Lemma dispatch_unmatched_not_tuple_witness :
  dispatch Example.mro Example.py_str (Example.d0 false) (OStr "foo")
    "default" Example.heap_empty
  = (Example.heap_empty,
     Raise (ValueError (no_dispatch_prefix ++ "foo")%string)).
Proof.
  refine (dispatch_unmatched_not_tuple Example.mro Example.py_str
            (Example.d0 false) (OStr "foo") "default" Example.heap_empty ∅
            eq_refl _ eq_refl).
  repeat constructor.
Defined.

(** ** More on to_tuple *)

(** X20.  What [to_tuple] returns for anything but [None] is a tuple
    that [to_tuple] hands back as it is, whatever the default: applying
    it twice is the same as applying it once. *)
Theorem to_tuple_idempotent (x default default' t : ToTuple.pyval) :
  x ≠ ToTuple.PNone ->
  ToTuple.to_tuple x default = Ok t ->
  (exists items, t = ToTuple.PTuple items)
  /\ ToTuple.to_tuple t default' = Ok t.
Proof.
  intros Hx Ht.
  destruct x as [|s|n|items|items|items [e|]|oid]; try done;
    unfold ToTuple.to_tuple, ToTuple.py_tuple in Ht; simpl in Ht;
    simplify_eq; (split; [by eexists|done]).
Qed.

Lemma to_tuple_idempotent_witness :
  (exists items, ToTuple.PTuple [ToTuple.PStr "a1"; ToTuple.PStr "b2"]
                 = ToTuple.PTuple items)
  /\ ToTuple.to_tuple (ToTuple.PTuple [ToTuple.PStr "a1"; ToTuple.PStr "b2"])
       (ToTuple.PInt 0)
     = Ok (ToTuple.PTuple [ToTuple.PStr "a1"; ToTuple.PStr "b2"]).
Proof.
  refine (to_tuple_idempotent
            (ToTuple.PList [ToTuple.PStr "a1"; ToTuple.PStr "b2"])
            ToTuple.PNone (ToTuple.PInt 0)
            (ToTuple.PTuple [ToTuple.PStr "a1"; ToTuple.PStr "b2"]) _ eq_refl).
  discriminate.
Defined.

(** ** ModuleClsProxy *)

Section ProxyFacts.

Variable cls_name : string.
Variable inst_getattr : nat -> string -> option nat.

Local Abbreviation install_attrs := (Proxy.install_attrs cls_name inst_getattr).
Local Abbreviation install_modules :=
  (Proxy.install_modules cls_name inst_getattr).
Local Abbreviation _install_proxy := (Proxy._install_proxy cls_name inst_getattr).
Local Abbreviation _add_proxied_attribute :=
  (Proxy._add_proxied_attribute cls_name).

Implicit Types (st : Proxy.pstate) (G : gmap string Proxy.nsval).

(** The state with the dict at [g] replaced. *)
Local Abbreviation with_dict st g G :=
  (Proxy.PState (<[g := G]> (Proxy.ns st)) (Proxy.attr_names st)
     (Proxy.modules st) (Proxy.cls_attrs st)).

Lemma pbind_assoc {A B C} (c : Proxy.PM A) (k : A -> Proxy.PM B)
    (k' : B -> Proxy.PM C) st :
  Proxy.pbind (Proxy.pbind c k) k' st
  = Proxy.pbind c (fun a => Proxy.pbind (k a) k') st.
Proof.
  unfold Proxy.pbind. destruct (c st) as [st1 [a|e]]; [|done].
  by destruct (k a st1) as [st2 [b|e]].
Qed.

Lemma ns_set_spec g k v st G :
  Proxy.ns st !! g = Some G ->
  Proxy.ns_set g k v st = (with_dict st g (<[k := v]> G), Ok tt).
Proof. intros E. unfold Proxy.ns_set. by rewrite E. Qed.

Lemma ns_del_spec g k st G :
  Proxy.ns st !! g = Some G -> is_Some (G !! k) ->
  Proxy.ns_del g k st = (with_dict st g (delete k G), Ok tt).
Proof. intros E [v Hv]. unfold Proxy.ns_del. by rewrite E, Hv. Qed.

Lemma with_dict_lookup st g G :
  g < length (Proxy.ns st) -> Proxy.ns (with_dict st g G) !! g = Some G.
Proof. intros Hlt. simpl. by apply list_lookup_insert_eq. Qed.

Lemma with_dict_twice st g G G' :
  with_dict (with_dict st g G) g G' = with_dict st g G'.
Proof. simpl. by rewrite list_insert_insert_eq. Qed.

Lemma install_attrs_spec self (v : string -> nat) g names : forall st G,
  Proxy.ns st !! g = Some G ->
  (forall a, a ∈ names -> inst_getattr self a = Some (v a)) ->
  install_attrs self g names st
  = (with_dict st g (foldl (fun G a => <[a := Proxy.NAttr (v a)]> G) G names),
     Ok tt).
Proof.
  induction names as [|a names IH]; intros st G E Hv; simpl.
  - unfold Proxy.pret. destruct st as [n A M C]; simpl in *.
    by rewrite list_insert_id.
  - unfold Proxy.pbind at 1. unfold Proxy.self_getattr.
    rewrite (Hv a) by (by left).
    unfold Proxy.pbind at 1. rewrite (ns_set_spec _ _ _ _ _ E).
    rewrite (IH _ (<[a := Proxy.NAttr (v a)]> G)).
    + by rewrite with_dict_twice.
    + apply with_dict_lookup. by eapply lookup_lt_Some.
    + intros a' Ha'. apply Hv. by right.
Qed.

Lemma remove_attrs_spec g names : forall st G,
  NoDup names ->
  Proxy.ns st !! g = Some G ->
  (forall a, a ∈ names -> is_Some (G !! a)) ->
  Proxy.remove_attrs g names st
  = (with_dict st g (foldl (fun G a => delete a G) G names), Ok tt).
Proof.
  induction names as [|a names IH]; intros st G Hnd E Hin; simpl.
  - unfold Proxy.pret. destruct st as [n A M C]; simpl in *.
    by rewrite list_insert_id.
  - apply NoDup_cons in Hnd as [Hnin Hnd].
    unfold Proxy.pbind.
    rewrite (ns_del_spec _ _ _ _ E) by (apply Hin; by left).
    rewrite (IH _ (delete a G)).
    + by rewrite with_dict_twice.
    + done.
    + apply with_dict_lookup. by eapply lookup_lt_Some.
    + intros a' Ha'. rewrite lookup_delete_ne by (by intros ->).
      apply Hin. by right.
Qed.

(** A loop over the modules whose body replaces the dict [globals_] of
    the module by a function of it. *)
Lemma modules_loop (loop : list (loc * loc) -> Proxy.PM unit)
    (act : loc -> Proxy.PM unit) (F : gmap string Proxy.nsval -> gmap string Proxy.nsval)
    (Pre : gmap string Proxy.nsval -> Prop) :
  (forall st, loop [] st = (st, Ok tt)) ->
  (forall g l rest st,
     loop ((g, l) :: rest) st = Proxy.pbind (act g) (fun _ => loop rest) st) ->
  (forall g st G, Proxy.ns st !! g = Some G -> Pre G ->
     act g st = (with_dict st g (F G), Ok tt)) ->
  forall mods st,
    NoDup mods.*1 ->
    (forall g, g ∈ mods.*1 ->
       exists G, Proxy.ns st !! g = Some G /\ Pre G) ->
    exists st',
      loop mods st = (st', Ok tt)
      /\ Proxy.attr_names st' = Proxy.attr_names st
      /\ Proxy.modules st' = Proxy.modules st
      /\ Proxy.cls_attrs st' = Proxy.cls_attrs st
      /\ (forall g G, g ∈ mods.*1 -> Proxy.ns st !! g = Some G ->
            Proxy.ns st' !! g = Some (F G))
      /\ (forall g, g ∉ mods.*1 -> Proxy.ns st' !! g = Proxy.ns st !! g).
Proof.
  intros Hnil Hcons Hact.
  induction mods as [|[g l] mods IH]; intros st Hnd Hpre.
  - exists st. rewrite Hnil. repeat split; try done.
    intros g G Hin. by inversion Hin.
  - simpl in Hnd. apply NoDup_cons in Hnd as [Hnin Hnd].
    destruct (Hpre g) as (G & E & HG); [by left|].
    rewrite Hcons. unfold Proxy.pbind. rewrite (Hact _ _ _ E HG).
    destruct (IH (with_dict st g (F G)) Hnd) as (st' & Hrun & HA & HM & HC & Hin & Hout).
    { intros g' Hg'. destruct (Hpre g') as (G' & E' & HG'); [by right|].
      exists G'. split; [|done]. simpl.
      rewrite list_lookup_insert_ne; [done|]. by intros ->. }
    exists st'. split; [done|]. split; [done|]. split; [done|]. split; [done|].
    split.
    + intros g0 G0 Hg0 E0. simpl in Hg0.
      apply elem_of_cons in Hg0 as [->|Hg0].
      * rewrite Hout by done. rewrite E in E0. injection E0 as <-.
        apply with_dict_lookup. by eapply lookup_lt_Some.
      * apply Hin; [done|]. simpl. rewrite list_lookup_insert_ne; [done|].
        by intros ->.
    + intros g0 [Hne Hg0]%not_elem_of_cons. rewrite Hout by done. simpl.
      by rewrite list_lookup_insert_ne.
Qed.

Lemma install_modules_spec self (v : string -> nat) names mods st :
  NoDup mods.*1 ->
  (forall g, g ∈ mods.*1 -> is_Some (Proxy.ns st !! g)) ->
  (forall a, a ∈ names -> inst_getattr self a = Some (v a)) ->
  exists st',
    install_modules self names mods st = (st', Ok tt)
    /\ Proxy.attr_names st' = Proxy.attr_names st
    /\ Proxy.modules st' = Proxy.modules st
    /\ Proxy.cls_attrs st' = Proxy.cls_attrs st
    /\ (forall g G, g ∈ mods.*1 -> Proxy.ns st !! g = Some G ->
          Proxy.ns st' !! g = Some (Proxy.installed self v names G))
    /\ (forall g, g ∉ mods.*1 -> Proxy.ns st' !! g = Proxy.ns st !! g).
Proof.
  intros Hnd Hvalid Hv.
  apply (modules_loop (install_modules self names)
           (fun g => Proxy.pbind (Proxy.ns_set g "_proxy" (Proxy.NProxy self))
                       (fun _ => install_attrs self g names))
           (Proxy.installed self v names) (fun _ => True)).
  - done.
  - intros g l rest st0. simpl. by rewrite pbind_assoc.
  - intros g st0 G E _. unfold Proxy.pbind.
    rewrite (ns_set_spec _ _ _ _ _ E).
    rewrite (install_attrs_spec self v g names _
               (<["_proxy" := Proxy.NProxy self]> G)).
    + by rewrite with_dict_twice.
    + apply with_dict_lookup. by eapply lookup_lt_Some.
    + done.
  - done.
  - intros g Hg. destruct (Hvalid g Hg) as [G E]. by exists G.
Qed.

Lemma remove_modules_spec names mods st :
  NoDup names ->
  NoDup mods.*1 ->
  (forall g, g ∈ mods.*1 ->
     exists G, Proxy.ns st !! g = Some G
               /\ forall a, a ∈ names ->
                    is_Some (<["_proxy" := Proxy.NNone]> G !! a)) ->
  exists st',
    Proxy.remove_modules names mods st = (st', Ok tt)
    /\ Proxy.attr_names st' = Proxy.attr_names st
    /\ Proxy.modules st' = Proxy.modules st
    /\ Proxy.cls_attrs st' = Proxy.cls_attrs st
    /\ (forall g G, g ∈ mods.*1 -> Proxy.ns st !! g = Some G ->
          Proxy.ns st' !! g = Some (Proxy.removed names G))
    /\ (forall g, g ∉ mods.*1 -> Proxy.ns st' !! g = Proxy.ns st !! g).
Proof.
  intros Hnames Hnd Hpre.
  apply (modules_loop (Proxy.remove_modules names)
           (fun g => Proxy.pbind (Proxy.ns_set g "_proxy" Proxy.NNone)
                       (fun _ => Proxy.remove_attrs g names))
           (Proxy.removed names)
           (fun G => forall a, a ∈ names ->
                       is_Some (<["_proxy" := Proxy.NNone]> G !! a))).
  - done.
  - intros g l rest st0. simpl. by rewrite pbind_assoc.
  - intros g st0 G E HG. unfold Proxy.pbind.
    rewrite (ns_set_spec _ _ _ _ _ E).
    rewrite (remove_attrs_spec g names _ (<["_proxy" := Proxy.NNone]> G)).
    + by rewrite with_dict_twice.
    + done.
    + apply with_dict_lookup. by eapply lookup_lt_Some.
    + done.
  - done.
  - done.
Qed.

(** Lookups in what the two loops make of a dict. *)
Lemma foldl_insert_lookup_ne (v : string -> nat) names : forall G k,
  k ∉ names ->
  foldl (fun G a => <[a := Proxy.NAttr (v a)]> G) G names !! k = G !! k.
Proof.
  induction names as [|a names IH]; intros G k Hk; simpl; [done|].
  apply not_elem_of_cons in Hk as [Hne Hk].
  rewrite IH by done. by apply lookup_insert_ne.
Qed.

Lemma foldl_insert_lookup (v : string -> nat) names : forall G a,
  a ∈ names ->
  foldl (fun G a => <[a := Proxy.NAttr (v a)]> G) G names !! a
  = Some (Proxy.NAttr (v a)).
Proof.
  induction names as [|a0 names IH]; intros G a Ha; [by inversion Ha|].
  simpl. destruct (decide (a ∈ names)) as [Hin|Hnin]; [by apply IH|].
  apply elem_of_cons in Ha as [->|?]; [|done].
  rewrite foldl_insert_lookup_ne by done. apply lookup_insert_eq.
Qed.

Lemma foldl_delete_lookup names : forall G k,
  foldl (fun G a => delete a G) G names !! k
  = if decide (k ∈ names) then None else G !! k.
Proof.
  induction names as [|a names IH]; intros G k; simpl.
  - destruct (decide (k ∈ [])) as [Hin|]; [by inversion Hin|done].
  - rewrite IH. destruct (decide (k ∈ names)) as [Hin|Hnin].
    + by rewrite decide_True by (by right).
    + destruct (decide (k = a)) as [->|Hne].
      * rewrite decide_True by (by left). apply lookup_delete_eq.
      * rewrite decide_False by (by intros [?|?]%elem_of_cons).
        by apply lookup_delete_ne.
Qed.


(** X21.  With distinct dicts [globals_] for the modules set up,
    [_install_proxy] stores the proxy object under "_proxy" in each of
    them, and under every name of [attr_names] the value of that
    attribute of the proxy object; the other names of the dict keep what
    they held. *)
Theorem install_proxy_exports
    (self : nat) (v : string -> nat) (st : Proxy.pstate) :
  NoDup (Proxy.modules st).*1 ->
  (forall g, g ∈ (Proxy.modules st).*1 -> is_Some (Proxy.ns st !! g)) ->
  "_proxy" ∉ Proxy.attr_names st ->
  (forall a, a ∈ Proxy.attr_names st -> inst_getattr self a = Some (v a)) ->
  exists st',
    _install_proxy self st = (st', Ok tt)
    /\ forall g G, g ∈ (Proxy.modules st).*1 -> Proxy.ns st !! g = Some G ->
         exists G',
           Proxy.ns st' !! g = Some G'
           /\ G' !! "_proxy" = Some (Proxy.NProxy self)
           /\ (forall a, a ∈ Proxy.attr_names st ->
                 G' !! a = Some (Proxy.NAttr (v a)))
           /\ (forall k, k ≠ "_proxy" -> k ∉ Proxy.attr_names st ->
                 G' !! k = G !! k).
Proof.
  intros Hnd Hvalid Hproxy Hv.
  destruct (install_modules_spec self v (elements (Proxy.attr_names st))
              (Proxy.modules st) st Hnd Hvalid)
    as (st' & Hrun & _ & _ & _ & Hin & _).
  { intros a Ha. apply Hv. by apply elem_of_elements. }
  exists st'. split; [done|].
  intros g G Hg E. exists (Proxy.installed self v (elements (Proxy.attr_names st)) G).
  split; [by apply Hin|]. unfold Proxy.installed. split; [|split].
  - rewrite foldl_insert_lookup_ne by (by rewrite elem_of_elements).
    apply lookup_insert_eq.
  - intros a Ha. apply foldl_insert_lookup. by apply elem_of_elements.
  - intros k Hk Hnin.
    rewrite foldl_insert_lookup_ne by (by rewrite elem_of_elements).
    by apply lookup_insert_ne.
Qed.

(** X22.  [_install_proxy] followed by [_remove_proxy], for modules with
    distinct dicts [globals_]: both return, and each dict then holds
    [None] under "_proxy", nothing under the names of [attr_names], and
    under every other name what it held before. *)
Theorem install_then_remove_proxy
    (self : nat) (st : Proxy.pstate) :
  NoDup (Proxy.modules st).*1 ->
  (forall g, g ∈ (Proxy.modules st).*1 -> is_Some (Proxy.ns st !! g)) ->
  "_proxy" ∉ Proxy.attr_names st ->
  (forall a, a ∈ Proxy.attr_names st -> is_Some (inst_getattr self a)) ->
  exists st',
    Proxy.pbind (_install_proxy self) (fun _ => Proxy._remove_proxy) st
    = (st', Ok tt)
    /\ Proxy.attr_names st' = Proxy.attr_names st
    /\ Proxy.modules st' = Proxy.modules st
    /\ (forall g G, g ∈ (Proxy.modules st).*1 -> Proxy.ns st !! g = Some G ->
          exists G',
            Proxy.ns st' !! g = Some G'
            /\ G' !! "_proxy" = Some Proxy.NNone
            /\ (forall a, a ∈ Proxy.attr_names st -> G' !! a = None)
            /\ (forall k, k ≠ "_proxy" -> k ∉ Proxy.attr_names st ->
                  G' !! k = G !! k))
    /\ (forall g, g ∉ (Proxy.modules st).*1 ->
          Proxy.ns st' !! g = Proxy.ns st !! g).
Proof.
  intros Hnd Hvalid Hproxy Hattr.
  set (v := fun a => default 0 (inst_getattr self a)).
  set (names := elements (Proxy.attr_names st)).
  assert (Hnames : forall a, a ∈ names <-> a ∈ Proxy.attr_names st)
    by (intros a; apply elem_of_elements).
  destruct (install_modules_spec self v names (Proxy.modules st) st Hnd Hvalid)
    as (st1 & Hrun1 & HA1 & HM1 & _ & Hin1 & Hout1).
  { intros a Ha%Hnames. destruct (Hattr a Ha) as [x Hx].
    unfold v. by rewrite Hx. }
  destruct (remove_modules_spec names (Proxy.modules st) st1)
    as (st2 & Hrun2 & HA2 & HM2 & _ & Hin2 & Hout2).
  { apply NoDup_elements. }
  { done. }
  { intros g Hg. destruct (Hvalid g Hg) as [G E].
    exists (Proxy.installed self v names G). split; [by apply Hin1|].
    intros a Ha. rewrite lookup_insert_ne.
    - unfold Proxy.installed. rewrite foldl_insert_lookup by done. by eexists.
    - intros <-. by apply Hproxy, Hnames. }
  exists st2. split.
  { unfold Proxy.pbind, Proxy._install_proxy. fold names. rewrite Hrun1.
    unfold Proxy._remove_proxy. by rewrite HA1, HM1. }
  split; [by rewrite HA2|]. split; [by rewrite HM2|]. split.
  - intros g G Hg E.
    exists (Proxy.removed names (Proxy.installed self v names G)).
    split; [by apply Hin2, Hin1|]. unfold Proxy.removed.
    split; [|split].
    + rewrite foldl_delete_lookup.
      rewrite decide_False by (by rewrite Hnames).
      apply lookup_insert_eq.
    + intros a Ha. rewrite foldl_delete_lookup.
      by rewrite decide_True by (by apply Hnames).
    + intros k Hk Hnin. rewrite foldl_delete_lookup.
      rewrite decide_False by (by rewrite Hnames).
      rewrite lookup_insert_ne by done. unfold Proxy.installed.
      rewrite foldl_insert_lookup_ne by (by rewrite Hnames).
      by apply lookup_insert_ne.
  - intros g Hg. by rewrite Hout2, Hout1.
Qed.

(** X23.  [_remove_proxy] when the names of [attr_names] are not in the
    dict [globals_] of the first module, as when no proxy was installed:
    the [del] raises [KeyError]. *)
Theorem remove_proxy_not_installed
    (st : Proxy.pstate) (g l : loc) (rest : list (loc * loc))
    (G : gmap string Proxy.nsval) :
  Proxy.modules st = (g, l) :: rest ->
  Proxy.ns st !! g = Some G ->
  Proxy.attr_names st ≠ ∅ ->
  "_proxy" ∉ Proxy.attr_names st ->
  (forall a, a ∈ Proxy.attr_names st -> G !! a = None) ->
  exists st', Proxy._remove_proxy st = (st', Raise KeyError).
Proof.
  intros HM E Hne Hproxy Habs.
  unfold Proxy._remove_proxy. rewrite HM.
  destruct (elements (Proxy.attr_names st)) as [|a names] eqn:Hel.
  { exfalso. apply Hne. apply leibniz_equiv. by apply elements_empty_inv. }
  assert (Ha : a ∈ Proxy.attr_names st)
    by (apply elem_of_elements; rewrite Hel; by left).
  simpl. unfold Proxy.pbind at 1. rewrite (ns_set_spec _ _ _ _ _ E).
  unfold Proxy.pbind, Proxy.ns_del. simpl.
  rewrite list_lookup_insert_eq by (by eapply lookup_lt_Some).
  rewrite lookup_insert_ne by (by intros <-).
  rewrite (Habs a Ha). by eexists.
Qed.


(** [_add_proxied_attribute] never puts a name that starts with an
    underscore into [attr_names]. *)
Lemma add_proxied_public m g l st :
  Proxy.public_only (Proxy.attr_names st) ->
  Proxy.public_only (Proxy.attr_names (_add_proxied_attribute m g l st).1).
Proof.
  intros Hpub. unfold Proxy._add_proxied_attribute.
  destruct (Proxy.starts_with_underscore m) eqn:Hm; simpl; [done|].
  unfold Proxy.pbind, Proxy.cls_getattr.
  destruct (Proxy.cls_attrs st !! m) as [ca|]; simpl; [|done].
  destruct (Proxy.ca_callable ca).
  - unfold Proxy._create_method_proxy, Proxy.pbind, Proxy.cls_getattr,
      Proxy.ns_set, Proxy.pret.
    destruct (Proxy.cls_attrs st !! m) as [ca'|]; simpl; [|done].
    destruct (Proxy.ns st !! g) as [G|]; simpl; [|done].
    destruct (Proxy.ca_translations ca') as [|tr trs]; simpl.
    + match goal with
      | |- context [?ls !! l] => destruct (ls !! l); simpl; done
      end.
    + match goal with
      | |- context [?ls !! g] => destruct (ls !! g); simpl; [|done]
      end.
      match goal with
      | |- context [?ls !! l] => destruct (ls !! l); simpl; done
      end.
  - simpl. intros x [->%elem_of_singleton|Hx]%elem_of_union; [done|].
    by apply Hpub.
Qed.

Lemma setup_names_public names g l : forall st,
  Proxy.public_only (Proxy.attr_names st) ->
  Proxy.public_only
    (Proxy.attr_names (Proxy.setup_names cls_name names g l st).1).
Proof.
  induction names as [|m names IH]; intros st Hpub; simpl; [done|].
  unfold Proxy.pbind.
  pose proof (add_proxied_public m g l st Hpub) as H1.
  destruct (_add_proxied_attribute m g l st) as [st1 [[]|e]]; simpl in *;
    [by apply IH|done].
Qed.

Lemma update_modules_public key mods : forall st,
  Proxy.public_only (Proxy.attr_names st) ->
  Proxy.public_only
    (Proxy.attr_names (Proxy.update_modules cls_name key mods st).1).
Proof.
  induction mods as [|[g l] mods IH]; intros st Hpub; simpl; [done|].
  unfold Proxy.pbind.
  pose proof (add_proxied_public key g l st Hpub) as H1.
  destruct (_add_proxied_attribute key g l st) as [st1 [[]|e]]; simpl in *;
    [by apply IH|done].
Qed.

(** X24.  No name that starts with an underscore gets into
    [attr_names]: if the set has none, it has none after
    [create_module_class_proxy] and after an assignment to an attribute
    of the class, whether they return or raise; so "_proxy" is never one
    of the names that [_install_proxy] exports. *)
Theorem attr_names_stay_public
    (st : Proxy.pstate) (g l : loc) (key : string) (value : Proxy.cattr) :
  Proxy.public_only (Proxy.attr_names st) ->
  Proxy.public_only
    (Proxy.attr_names (Proxy.create_module_class_proxy cls_name g l st).1)
  /\ Proxy.public_only
       (Proxy.attr_names (Proxy.class_setattr cls_name key value st).1)
  /\ ("_proxy" ∉ Proxy.attr_names
                    (Proxy.create_module_class_proxy cls_name g l st).1)
  /\ ("_proxy" ∉ Proxy.attr_names
                    (Proxy.class_setattr cls_name key value st).1).
Proof.
  intros Hpub.
  assert (H1 : Proxy.public_only
                 (Proxy.attr_names
                    (Proxy.create_module_class_proxy cls_name g l st).1)).
  { unfold Proxy.create_module_class_proxy, Proxy.pbind, Proxy._setup_proxy.
    simpl. by apply setup_names_public. }
  assert (H2 : Proxy.public_only
                 (Proxy.attr_names
                    (Proxy.class_setattr cls_name key value st).1)).
  { unfold Proxy.class_setattr, Proxy.pbind, Proxy._update_module_proxies.
    simpl. by apply update_modules_public. }
  split; [done|]. split; [done|]. split.
  - intros Hin. by specialize (H1 _ Hin).
  - intros Hin. by specialize (H2 _ Hin).
Qed.










End ProxyFacts.

Lemma example_proxy_modules_valid :
  NoDup (Proxy.modules ProxyExample.st_setup).*1
  /\ (forall g, g ∈ (Proxy.modules ProxyExample.st_setup).*1 ->
        is_Some (Proxy.ns ProxyExample.st_setup !! g))
  /\ "_proxy" ∉ Proxy.attr_names ProxyExample.st_setup.
Proof.
  split; [apply NoDup_singleton|]. split.
  - intros g Hg. apply elem_of_cons in Hg as [->|Hg]; [by eexists|].
    by inversion Hg.
  - simpl. by intros H%elem_of_singleton.
Qed.

Lemma install_proxy_exports_witness :
  exists st',
    Proxy._install_proxy "Operations" ProxyExample.inst_getattr 1
      ProxyExample.st_setup = (st', Ok tt)
    /\ forall g G, g ∈ (Proxy.modules ProxyExample.st_setup).*1 ->
         Proxy.ns ProxyExample.st_setup !! g = Some G ->
         exists G',
           Proxy.ns st' !! g = Some G'
           /\ G' !! "_proxy" = Some (Proxy.NProxy 1)
           /\ (forall a, a ∈ Proxy.attr_names ProxyExample.st_setup ->
                 G' !! a = Some (Proxy.NAttr 7))
           /\ (forall k, k ≠ "_proxy" ->
                 k ∉ Proxy.attr_names ProxyExample.st_setup ->
                 G' !! k = G !! k).
Proof.
  refine (install_proxy_exports "Operations" ProxyExample.inst_getattr 1
            (fun _ => 7) ProxyExample.st_setup
            (proj1 example_proxy_modules_valid)
            (proj1 (proj2 example_proxy_modules_valid))
            (proj2 (proj2 example_proxy_modules_valid)) _).
  simpl. by intros a ->%elem_of_singleton.
Defined.

Lemma install_then_remove_proxy_witness :
  exists st',
    Proxy.pbind
      (Proxy._install_proxy "Operations" ProxyExample.inst_getattr 1)
      (fun _ => Proxy._remove_proxy) ProxyExample.st_setup
    = (st', Ok tt)
    /\ Proxy.attr_names st' = Proxy.attr_names ProxyExample.st_setup
    /\ Proxy.modules st' = Proxy.modules ProxyExample.st_setup
    /\ (forall g G, g ∈ (Proxy.modules ProxyExample.st_setup).*1 ->
          Proxy.ns ProxyExample.st_setup !! g = Some G ->
          exists G',
            Proxy.ns st' !! g = Some G'
            /\ G' !! "_proxy" = Some Proxy.NNone
            /\ (forall a, a ∈ Proxy.attr_names ProxyExample.st_setup ->
                  G' !! a = None)
            /\ (forall k, k ≠ "_proxy" ->
                  k ∉ Proxy.attr_names ProxyExample.st_setup ->
                  G' !! k = G !! k))
    /\ (forall g, g ∉ (Proxy.modules ProxyExample.st_setup).*1 ->
          Proxy.ns st' !! g = Proxy.ns ProxyExample.st_setup !! g).
Proof.
  refine (install_then_remove_proxy "Operations" ProxyExample.inst_getattr 1
            ProxyExample.st_setup
            (proj1 example_proxy_modules_valid)
            (proj1 (proj2 example_proxy_modules_valid))
            (proj2 (proj2 example_proxy_modules_valid)) _).
  simpl. intros a ->%elem_of_singleton. by eexists.
Defined.

Lemma remove_proxy_not_installed_witness :
  exists st', Proxy._remove_proxy ProxyExample.st_setup = (st', Raise KeyError).
Proof.
  refine (remove_proxy_not_installed ProxyExample.st_setup 0 0 []
            ProxyExample.module_dict eq_refl eq_refl _
            (proj2 (proj2 example_proxy_modules_valid)) _).
  - simpl. intros H. assert (Hin : "impl" ∈ (∅ : gset string)).
    { rewrite <- H. by apply elem_of_singleton. }
    by apply not_elem_of_empty in Hin.
  - simpl. by intros a ->%elem_of_singleton.
Defined.

Lemma attr_names_stay_public_witness :
  Proxy.public_only
    (Proxy.attr_names
       (Proxy.create_module_class_proxy "Operations" 0 0 ProxyExample.st_new).1)
  /\ Proxy.public_only
       (Proxy.attr_names
          (Proxy.class_setattr "Operations" "impl"
             (Proxy.Build_cattr false [] 8) ProxyExample.st_new).1)
  /\ ("_proxy" ∉ Proxy.attr_names
                    (Proxy.create_module_class_proxy "Operations" 0 0
                       ProxyExample.st_new).1)
  /\ ("_proxy" ∉ Proxy.attr_names
                    (Proxy.class_setattr "Operations" "impl"
                       (Proxy.Build_cattr false [] 8) ProxyExample.st_new).1).
Proof.
  refine (attr_names_stay_public "Operations" ProxyExample.st_new 0 0 "impl"
            (Proxy.Build_cattr false [] 8) _).
  intros name Hin. simpl in Hin. by apply not_elem_of_empty in Hin.
Defined.



(** The state of the example after [create_module_class_proxy] is the
    one the method builds. *)
Lemma example_proxy_setup :
  Proxy.create_module_class_proxy "Operations" 0 0 ProxyExample.st_new
  = (ProxyExample.st_setup, Ok tt).
Proof. vm_compute. reflexivity. Qed.
